(** * Lazy sequence generators: range, enumerate, zip

    A shallow embedding of the generator classes of the utilities headers
    (utilities/range.h, utilities/enumerate.h, the zip class of the single
    header, and util::gen::EnumeratorImpl), with the properties stated for
    them.

    Conventions of the embedding:
    - [int64_t] is a [Z] together with the two's-complement wrap-around of
      every arithmetic result ([Int64.wrap]);
    - a standard iterator is a position in the sequence it walks ([Iter]);
    - a member function that is not [const] threads the object through
      (it returns the object next to its result);
    - template parameters become ordinary parameters. *)

From Stdlib Require Import ZArith List Bool Lia.
Import ListNotations.

Local Open Scope Z_scope.

(* ================================================================== *)
(** ** int64_t *)

Module Int64.

Definition modulus : Z := 2 ^ 64.
Definition min_signed : Z := - 2 ^ 63.
Definition max_signed : Z := 2 ^ 63 - 1.

(** The values of the type. *)
Definition in_range (z : Z) : Prop := min_signed <= z <= max_signed.

(** The representative of [z] modulo 2^64 in the signed range. *)
Definition wrap (z : Z) : Z := (z - min_signed) mod modulus + min_signed.

Definition add (a b : Z) : Z := wrap (a + b).
Definition mul (a b : Z) : Z := wrap (a * b).
Definition ltb (a b : Z) : bool := a <? b.

End Int64.

(* ================================================================== *)
(** ** Standard iterators over a sequence container

    [std::begin], [std::end], [++it], [*it] and [it != other] of a
    sequence container.  A marker remembers the sequence it points into and
    its offset from the start.  Dereferencing is partial: it has a value
    only strictly before the end marker. *)

Section Iterators.
Context {A : Type}.

Record Iter : Type := MkIter { container : list A; pos : nat }.

Definition std_begin (c : list A) : Iter := MkIter c 0%nat.
Definition std_end (c : list A) : Iter := MkIter c (length c).
Definition iter_incr (it : Iter) : Iter := MkIter (container it) (S (pos it)).
Definition iter_deref (it : Iter) : option A := nth_error (container it) (pos it).
Definition iter_neq (a b : Iter) : bool := negb (Nat.eqb (pos a) (pos b)).
End Iterators.

Arguments Iter A : clear implicits.

(* ================================================================== *)
(** ** The generator protocol *)

(** What a generator implementation provides: [operator*()],
    [operator++()] and [explicit operator bool() const]. *)
Class GeneratorImpl (G V : Type) : Type := {
  op_deref : G -> V * G;
  op_incr : G -> G;
  op_bool : G -> bool
}.

(** [utilities::intern::Generator<Impl>]: derives from [Impl] and forwards
    the three operators to it. *)
Record Generator (Impl : Type) : Type := MkGenerator { base : Impl }.
Arguments MkGenerator {Impl} _.
Arguments base {Impl} _.

#[global] Instance Generator_ops {Impl V : Type} `{GeneratorImpl Impl V}
  : GeneratorImpl (Generator Impl) V := {
  op_deref g := let (v, i) := op_deref (base g) in (v, MkGenerator i);
  op_incr g := MkGenerator (op_incr (base g));
  op_bool g := op_bool (base g)
}.

(** Modelled from the spec: the iterator/loop bridge ([GeneratorIterator]
    and [GeneratorEnd] of generator_iterator.h, which is not among the
    sources).  Section 4.2: inequality against the sentinel is "has more",
    dereference is "current", pre-increment is "advance".  A ranged-for
    over a generator therefore tests, dereferences, runs the body and
    advances, until the test fails.  [for_each] returns the values handed
    to the body, or [None] when the loop has not ended after [fuel]
    tests. *)
Fixpoint for_each {G V : Type} `{GeneratorImpl G V} (fuel : nat) (g : G)
  : option (list V) :=
  match fuel with
  | O => None
  | S fuel' =>
      if op_bool g then
        let (v, g1) := op_deref g in
        match for_each fuel' (op_incr g1) with
        | Some vs => Some (v :: vs)
        | None => None
        end
      else Some []
  end.

(** [n] calls of [operator++]. *)
Fixpoint advance_n {G V : Type} `{GeneratorImpl G V} (n : nat) (g : G) : G :=
  match n with
  | O => g
  | S n' => op_incr (advance_n n' g)
  end.

(** States reached from [g0] by a caller that keeps to the protocol:
    [operator++] only while [operator bool] holds. *)
Inductive reachable {G V : Type} `{GeneratorImpl G V} (g0 : G) : G -> Prop :=
| reach_start : reachable g0 g0
| reach_incr g : reachable g0 g -> op_bool g = true -> reachable g0 (op_incr g).

(** Observations that are not [operator++]. *)
Inductive Query : Type := Current | HasMore.

Inductive Answer (V : Type) : Type :=
| Value (v : V)
| Flag (b : bool).
Arguments Value {V} _.
Arguments Flag {V} _.

Definition ask {G V : Type} `{GeneratorImpl G V} (q : Query) (g : G)
  : Answer V * G :=
  match q with
  | Current => let (v, g1) := op_deref g in (Value v, g1)
  | HasMore => (Flag (op_bool g), g)
  end.

Fixpoint ask_all {G V : Type} `{GeneratorImpl G V} (qs : list Query) (g : G)
  : list (Answer V) * G :=
  match qs with
  | [] => ([], g)
  | q :: qs' =>
      let (a, g1) := ask q g in
      let (rest, g2) := ask_all qs' g1 in
      (a :: rest, g2)
  end.

(* ================================================================== *)
(** ** What a positional [get<N>()] hands back *)

Inductive Returned : Type :=
| RetIdx (i : Z)                      (* [return idx_;] *)
| RetElem {T : Type} (x : option T)   (* [return *iterator;] *)
| RetVoid.                            (* no [return] selected: the call has type void *)

(** The values a structured binding of arity [size] is bound to:
    [get<0>()], ..., [get<size-1>()]. *)
Definition bindings {St : Type} (size : nat) (get : nat -> St -> Returned) (s : St)
  : list Returned :=
  map (fun N => get N s) (seq 0 size).

(* ================================================================== *)
(** ** range (utilities/range.h) *)

Module Range.

Record RangeImpl : Type := MkRangeImpl {
  val_ : Z;
  step_ : Z;
  comparison_mod_ : Z;
  modded_end_ : Z
}.

(** The constructor: its body is empty, the members are initialised in
    declaration order. *)
Definition RangeImpl_new (begin end_ step : Z) : RangeImpl :=
  let comparison_mod := if step <? 0 then -1 else 1 in
  {| val_ := begin;
     step_ := step;
     comparison_mod_ := comparison_mod;
     modded_end_ := Int64.mul end_ comparison_mod |}.

Definition RangeImpl_deref (r : RangeImpl) : Z * RangeImpl := (val_ r, r).

Definition RangeImpl_incr (r : RangeImpl) : RangeImpl :=
  {| val_ := Int64.add (val_ r) (step_ r);
     step_ := step_ r;
     comparison_mod_ := comparison_mod_ r;
     modded_end_ := modded_end_ r |}.

Definition RangeImpl_bool (r : RangeImpl) : bool :=
  Int64.ltb (Int64.mul (val_ r) (comparison_mod_ r)) (modded_end_ r).

#[global] Instance RangeImpl_ops : GeneratorImpl RangeImpl Z := {
  op_deref := RangeImpl_deref;
  op_incr := RangeImpl_incr;
  op_bool := RangeImpl_bool
}.

Definition Range : Type := Generator RangeImpl.

(** The three [range] overloads. *)
Definition range (end_ : Z) : Range := MkGenerator (RangeImpl_new 0 end_ 1).
Definition range2 (begin end_ : Z) : Range := MkGenerator (RangeImpl_new begin end_ 1).
Definition range3 (begin end_ step : Z) : Range :=
  MkGenerator (RangeImpl_new begin end_ step).

End Range.

(* ================================================================== *)
(** ** enumerate (utilities/enumerate.h) *)

Module Enumerate.
Section Enumerate.
Context {A : Type}.

Record EnumerateState : Type := MkState { idx_ : Z; iter_ : Iter A }.

Definition get (N : nat) (s : EnumerateState) : Returned :=
  if Nat.eqb N 0 then RetIdx (idx_ s)
  else if Nat.eqb N 1 then RetElem (iter_deref (iter_ s))
  else RetVoid.

(** [std::tuple_size<EnumerateState>] *)
Definition tuple_size : nat := 2.

Record enumerate : Type := MkEnumerate {
  iterable_ : list A;
  starting_idx_ : Z;
  state_ : EnumerateState
}.

(** Aggregate initialisation [enumerate{iterable, starting_idx}]:
    [state_] takes its default member initialiser. *)
Definition make (iterable : list A) (starting_idx : Z) : enumerate :=
  {| iterable_ := iterable;
     starting_idx_ := starting_idx;
     state_ := {| idx_ := starting_idx; iter_ := std_begin iterable |} |}.

(** [enumerate{iterable}]: [starting_idx_] keeps its default, 0. *)
Definition make_default (iterable : list A) : enumerate := make iterable 0.

Definition deref (e : enumerate) : EnumerateState * enumerate := (state_ e, e).

Definition incr (e : enumerate) : enumerate :=
  {| iterable_ := iterable_ e;
     starting_idx_ := starting_idx_ e;
     state_ := {| idx_ := Int64.add (idx_ (state_ e)) 1;
                  iter_ := iter_incr (iter_ (state_ e)) |} |}.

Definition to_bool (e : enumerate) : bool :=
  iter_neq (iter_ (state_ e)) (std_end (iterable_ e)).

#[global] Instance enumerate_ops : GeneratorImpl enumerate EnumerateState := {
  op_deref := deref;
  op_incr := incr;
  op_bool := to_bool
}.

End Enumerate.
Arguments EnumerateState A : clear implicits.
Arguments enumerate A : clear implicits.
End Enumerate.

(* ================================================================== *)
(** ** util::gen::EnumeratorImpl (include/util/gen/enumerator.h) *)

Module Enumerator.
Section Enumerator.
Context {A : Type}.

Record EnumeratorState : Type := MkState { idx_ : Z; iter_ : Iter A }.

Definition get (N : nat) (s : EnumeratorState) : Returned :=
  if Nat.eqb N 0 then RetIdx (idx_ s)
  else if Nat.eqb N 1 then RetElem (iter_deref (iter_ s))
  else RetVoid.

Definition tuple_size : nat := 2.

Record EnumeratorImpl : Type := MkEnumeratorImpl {
  iterable_ : list A;
  starting_idx_ : Z;
  state_ : EnumeratorState
}.

Definition make (iterable : list A) (starting_idx : Z) : EnumeratorImpl :=
  {| iterable_ := iterable;
     starting_idx_ := starting_idx;
     state_ := {| idx_ := starting_idx; iter_ := std_begin iterable |} |}.

Definition make_default (iterable : list A) : EnumeratorImpl := make iterable 0.

Definition deref (e : EnumeratorImpl) : EnumeratorState * EnumeratorImpl :=
  (state_ e, e).

Definition incr (e : EnumeratorImpl) : EnumeratorImpl :=
  {| iterable_ := iterable_ e;
     starting_idx_ := starting_idx_ e;
     state_ := {| idx_ := Int64.add (idx_ (state_ e)) 1;
                  iter_ := iter_incr (iter_ (state_ e)) |} |}.

Definition to_bool (e : EnumeratorImpl) : bool :=
  iter_neq (iter_ (state_ e)) (std_end (iterable_ e)).

#[global] Instance EnumeratorImpl_ops
  : GeneratorImpl EnumeratorImpl EnumeratorState := {
  op_deref := deref;
  op_incr := incr;
  op_bool := to_bool
}.

End Enumerator.
Arguments EnumeratorState A : clear implicits.
Arguments EnumeratorImpl A : clear implicits.
End Enumerator.

(* ================================================================== *)
(** ** zip (single header/utilities.h)

    [ZipStorage<IDX, Cur, Rest...>] and [ZipState<IDX, Cur, Rest...>] are
    defined by recursion on the parameter pack: the specialisation for an
    empty [Rest] has one member, the other one adds the member for the
    remaining pack.  A struct with the members [a] and [b] is the pair
    [(a, b)].  [IDX] only matters to [get] and is a parameter there. *)

Module Zip.

(** [{ iterable }] or [{ iterable; next_storage }] *)
Fixpoint ZipStorage (Cur : Type) (Rest : list Type) : Type :=
  match Rest with
  | [] => list Cur
  | Nxt :: Rst => (list Cur * ZipStorage Nxt Rst)%type
  end.

(** [{ iterator }] or [{ iterator; next_state }] *)
Fixpoint ZipState (Cur : Type) (Rest : list Type) : Type :=
  match Rest with
  | [] => Iter Cur
  | Nxt :: Rst => (Iter Cur * ZipState Nxt Rst)%type
  end.

(** The constructor from the storage of the same depth. *)
Fixpoint ZipState_new (Cur : Type) (Rest : list Type) {struct Rest}
  : ZipStorage Cur Rest -> ZipState Cur Rest :=
  match Rest with
  | [] => fun storage => std_begin storage
  | Nxt :: Rst => fun storage =>
      (std_begin (fst storage), ZipState_new Nxt Rst (snd storage))
  end.

(** [operator++] *)
Fixpoint ZipState_incr (Cur : Type) (Rest : list Type) {struct Rest}
  : ZipState Cur Rest -> ZipState Cur Rest :=
  match Rest with
  | [] => fun s => iter_incr s
  | Nxt :: Rst => fun s => (iter_incr (fst s), ZipState_incr Nxt Rst (snd s))
  end.

Fixpoint can_advance (Cur : Type) (Rest : list Type) {struct Rest}
  : ZipState Cur Rest -> ZipStorage Cur Rest -> bool :=
  match Rest with
  | [] => fun s storage => iter_neq s (std_end storage)
  | Nxt :: Rst => fun s storage =>
      iter_neq (fst s) (std_end (fst storage))
      && can_advance Nxt Rst (snd s) (snd storage)
  end.

Fixpoint get (IDX : nat) (Cur : Type) (Rest : list Type) (N : nat) {struct Rest}
  : ZipState Cur Rest -> Returned :=
  match Rest with
  | [] => fun s =>
      if Nat.eqb N IDX then RetElem (iter_deref s) else RetVoid
  | Nxt :: Rst => fun s =>
      if Nat.eqb N IDX then RetElem (iter_deref (fst s))
      else get (S IDX) Nxt Rst N (snd s)
  end.

(** [std::tuple_size<ZipState<0, Iterables...>>] is [sizeof...(Iterables)]. *)
Definition tuple_size (Rest : list Type) : nat := S (length Rest).

Arguments ZipState_new {Cur Rest} _.
Arguments ZipState_incr {Cur Rest} _.
Arguments can_advance {Cur Rest} _ _.
Arguments get IDX {Cur Rest} N _.

Record zip (Cur : Type) (Rest : list Type) : Type := MkZip {
  storage_ : ZipStorage Cur Rest;
  state_ : ZipState Cur Rest
}.
Arguments MkZip {Cur Rest} _ _.
Arguments storage_ {Cur Rest} _.
Arguments state_ {Cur Rest} _.

(** Aggregate initialisation [zip{iterables...}]: [state_] takes its
    default member initialiser [state_{storage_}]. *)
Definition make {Cur : Type} {Rest : list Type} (storage : ZipStorage Cur Rest)
  : zip Cur Rest :=
  MkZip storage (ZipState_new storage).

Definition deref {Cur Rest} (z : zip Cur Rest) : ZipState Cur Rest * zip Cur Rest :=
  (state_ z, z).

Definition incr {Cur Rest} (z : zip Cur Rest) : zip Cur Rest :=
  MkZip (storage_ z) (ZipState_incr (state_ z)).

Definition to_bool {Cur Rest} (z : zip Cur Rest) : bool :=
  can_advance (state_ z) (storage_ z).

#[global] Instance zip_ops {Cur Rest} : GeneratorImpl (zip Cur Rest) (ZipState Cur Rest) := {
  op_deref := deref;
  op_incr := incr;
  op_bool := to_bool
}.

(** The offsets of the markers and the lengths of their inputs, in
    input order. *)
Fixpoint positions (Cur : Type) (Rest : list Type) {struct Rest}
  : ZipState Cur Rest -> list nat :=
  match Rest with
  | [] => fun s => [pos s]
  | Nxt :: Rst => fun s => pos (fst s) :: positions Nxt Rst (snd s)
  end.

Fixpoint lengths (Cur : Type) (Rest : list Type) {struct Rest}
  : ZipStorage Cur Rest -> list nat :=
  match Rest with
  | [] => fun storage => [length storage]
  | Nxt :: Rst => fun storage =>
      length (fst storage) :: lengths Nxt Rst (snd storage)
  end.

(** Element [i] of every input, in input order: [(S1[i], ..., Sn[i])]. *)
Fixpoint row (Cur : Type) (Rest : list Type) (i : nat) {struct Rest}
  : ZipStorage Cur Rest -> list Returned :=
  match Rest with
  | [] => fun storage => [RetElem (nth_error storage i)]
  | Nxt :: Rst => fun storage =>
      RetElem (nth_error (fst storage) i) :: row Nxt Rst i (snd storage)
  end.

Arguments positions {Cur Rest} _.
Arguments lengths {Cur Rest} _.
Arguments row {Cur Rest} i _.

(** The length of the shortest input, [min(L1, ..., Ln)]. *)
Fixpoint shortest (Cur : Type) (Rest : list Type) {struct Rest}
  : ZipStorage Cur Rest -> nat :=
  match Rest with
  | [] => fun storage => length storage
  | Nxt :: Rst => fun storage =>
      Nat.min (length (fst storage)) (shortest Nxt Rst (snd storage))
  end.

(** The state whose markers all stand at offset [k] of their input. *)
Fixpoint ZipState_at (Cur : Type) (Rest : list Type) (k : nat) {struct Rest}
  : ZipStorage Cur Rest -> ZipState Cur Rest :=
  match Rest with
  | [] => fun storage => MkIter storage k
  | Nxt :: Rst => fun storage =>
      (MkIter (fst storage) k, ZipState_at Nxt Rst k (snd storage))
  end.

Arguments shortest {Cur Rest} _.
Arguments ZipState_at {Cur Rest} k _.

End Zip.

(* ================================================================== *)
(** ** Vocabulary of the statements *)

(** The first [n] terms of the progression [b], [b + s], [b + 2 s], ... *)
Definition progression (b s : Z) (n : nat) : list Z :=
  map (fun k => b + Z.of_nat k * s) (seq 0 n).

(** The directional comparison of a value with the end of a range:
    strictly below it when counting up, strictly above it when counting
    down. *)
Definition before_end (step v end_ : Z) : Prop :=
  if 0 <? step then v < end_ else end_ < v.

(** No arithmetic of a loop over [range3 begin end_ step] leaves the 64-bit
    range: the value that follows a value handed to the body is a 64-bit
    value, and, when counting down, so are the opposites that the test
    takes, those of [begin], of [end_] and of every such value. *)
Definition no_overflow (begin end_ step : Z) : Prop :=
  (forall k, 0 <= k -> before_end step (begin + k * step) end_ ->
     Int64.in_range (begin + k * step + step))
  /\ (step < 0 ->
      Int64.min_signed < begin /\ Int64.min_signed < end_
      /\ forall k, 0 <= k -> before_end step (begin + k * step) end_ ->
           Int64.min_signed < begin + k * step + step).

(** The pairs a loop body [for (auto&& [index, value] : ...)] should see
    for the sequence [xs] and the starting index [s]:
    [(s, xs[0])], [(s+1, xs[1])], ... *)
Fixpoint expected_pairs {A : Type} (xs : list A) (s : Z) : list (list Returned) :=
  match xs with
  | [] => []
  | x :: xs' => [RetIdx s; RetElem (Some x)] :: expected_pairs xs' (s + 1)
  end.

(** A position of a tuple that holds an element of an input. *)
Definition is_element (r : Returned) : Prop :=
  match r with
  | @RetElem _ (Some _) => True
  | _ => False
  end.

(** The two enumerate classes hold the same data. *)
Definition same_state {A : Type}
  (a : Enumerate.enumerate A) (b : Enumerator.EnumeratorImpl A) : Prop :=
  Enumerate.iterable_ a = Enumerator.iterable_ b
  /\ Enumerate.starting_idx_ a = Enumerator.starting_idx_ b
  /\ Enumerate.idx_ (Enumerate.state_ a) = Enumerator.idx_ (Enumerator.state_ b)
  /\ Enumerate.iter_ (Enumerate.state_ a) = Enumerator.iter_ (Enumerator.state_ b).

(** The number of values of [range(begin, end_, step)]: the number of
    terms of the progression that come before the end. *)
Definition range_length (begin end_ step : Z) : nat :=
  if 0 <? step then Z.to_nat ((end_ - begin + step - 1) / step)
  else Z.to_nat ((begin - end_ - step - 1) / (- step)).

(** Every input of a zip cut after its first [m] elements. *)
Fixpoint truncate (Cur : Type) (Rest : list Type) (m : nat) {struct Rest}
  : Zip.ZipStorage Cur Rest -> Zip.ZipStorage Cur Rest :=
  match Rest with
  | [] => fun storage => firstn m storage
  | Nxt :: Rst => fun storage =>
      (firstn m (fst storage), truncate Nxt Rst m (snd storage))
  end.
Arguments truncate {Cur Rest} m _.

(** What the body of a loop over an enumerate or a zip destructures. *)
Definition enumerate_pairs {A : Type}
  : list (Enumerate.EnumerateState A) -> list (list Returned) :=
  map (bindings Enumerate.tuple_size Enumerate.get).

Definition zip_tuples {Cur : Type} {Rest : list Type}
  : list (Zip.ZipState Cur Rest) -> list (list Returned) :=
  map (bindings (Zip.tuple_size Rest) (Zip.get 0)).

(* ================================================================== *)
(** * Properties *)

(** ** 64-bit arithmetic *)

Lemma wrap_in_range (z : Z) : Int64.in_range z -> Int64.wrap z = z.
Proof.
  unfold Int64.in_range, Int64.wrap, Int64.min_signed, Int64.max_signed,
    Int64.modulus.
  intros Hz. rewrite Z.mod_small; lia.
Qed.

Lemma wrap_is_in_range (z : Z) : Int64.in_range (Int64.wrap z).
Proof.
  unfold Int64.in_range, Int64.wrap, Int64.min_signed, Int64.max_signed,
    Int64.modulus.
  pose proof (Z.mod_pos_bound (z - - 2 ^ 63) (2 ^ 64) ltac:(lia)). lia.
Qed.

Lemma mul_one (z : Z) : Int64.in_range z -> Int64.mul z 1 = z.
Proof.
  intros Hz. unfold Int64.mul. rewrite Z.mul_1_r. now apply wrap_in_range.
Qed.

Lemma mul_minus_one (z : Z) :
  Int64.min_signed < z <= Int64.max_signed -> Int64.mul z (-1) = - z.
Proof.
  intros Hz. unfold Int64.mul.
  replace (z * -1) with (- z) by lia.
  apply wrap_in_range.
  unfold Int64.in_range, Int64.min_signed, Int64.max_signed in *. lia.
Qed.

(** ** The loop bridge *)

Section Bridge.
Context {G V : Type} `{GeneratorImpl G V}.


(** A loop over [Generator<Impl>] hands the body what a loop over the
    implementation would. *)
Lemma for_each_base (fuel : nat) (g : Generator G) :
  for_each fuel g = for_each fuel (base g).
Proof.
  revert g. induction fuel as [|fuel IH]; intros g; [reflexivity|].
  simpl. destruct (op_bool (base g)); [|reflexivity].
  destruct (op_deref (base g)) as [v g1].
  rewrite IH. reflexivity.
Qed.

End Bridge.

(** ** range *)

Import Range.

Lemma progression_succ (b s : Z) (n : nat) :
  progression b s (S n) = b :: progression (b + s) s n.
Proof.
  unfold progression. cbn [seq map]. rewrite <- seq_shift, map_map.
  f_equal; [cbn; lia|].
  apply map_ext. intros k. lia.
Qed.

(** The state of a loop over [range3 _ end_ step] whose current value
    is [v]. *)
Lemma RangeImpl_incr_new (v e s : Z) :
  RangeImpl_incr (RangeImpl_new v e s) = RangeImpl_new (Int64.add v s) e s.
Proof. reflexivity. Qed.

(** Away from the most negative value, the product test is the
    directional comparison. *)
Lemma RangeImpl_bool_directional (v e s : Z) :
  Int64.in_range v -> Int64.in_range e ->
  (s < 0 -> Int64.min_signed < v /\ Int64.min_signed < e) ->
  RangeImpl_bool (RangeImpl_new v e s) = if s <? 0 then e <? v else v <? e.
Proof.
  intros Hv He Hmin.
  unfold RangeImpl_bool, RangeImpl_new, Int64.ltb. simpl.
  destruct (s <? 0) eqn:Hs.
  - apply Z.ltb_lt in Hs. destruct (Hmin Hs) as [Hv' He'].
    unfold Int64.in_range in *.
    rewrite !mul_minus_one by lia.
    destruct (e <? v) eqn:Hc.
    + apply Z.ltb_lt in Hc. apply Z.ltb_lt. lia.
    + apply Z.ltb_ge in Hc. apply Z.ltb_ge. lia.
  - rewrite !mul_one by assumption. reflexivity.
Qed.

Lemma for_each_RangeImpl (fuel : nat) (r : RangeImpl) :
  for_each (S fuel) r =
  if RangeImpl_bool r then
    match for_each fuel (RangeImpl_incr r) with
    | Some vs => Some (val_ r :: vs)
    | None => None
    end
  else Some [].
Proof. reflexivity. Qed.

(** Counting up.  The measure [m] bounds the distance to the end. *)
Lemma range_up (m : nat) : forall v e s,
  Int64.in_range v -> Int64.in_range e -> Int64.in_range s ->
  0 < s ->
  (forall k, 0 <= k -> v + k * s < e -> Int64.in_range (v + k * s + s)) ->
  (Z.to_nat (e - v) <= m)%nat ->
  exists n,
    (forall fuel, (n < fuel)%nat ->
       for_each fuel (RangeImpl_new v e s) = Some (progression v s n))
    /\ (forall x, In x (progression v s n) -> x < e)
    /\ e <= v + Z.of_nat n * s.
Proof.
  induction m as [|m IH]; intros v e s Hv He Hs Hpos Hnext Hm;
    destruct (Z_lt_ge_dec v e) as [Hlt|Hge].
  - lia.
  - exists 0%nat. repeat split; [|intros x []|lia].
    intros [|fuel] Hf; [lia|].
    rewrite for_each_RangeImpl, RangeImpl_bool_directional by (assumption || lia).
    replace (s <? 0) with false by (symmetry; apply Z.ltb_ge; lia).
    replace (v <? e) with false by (symmetry; apply Z.ltb_ge; lia).
    reflexivity.
  - assert (Hvs : Int64.in_range (v + s)).
    { specialize (Hnext 0 ltac:(lia)). rewrite Z.mul_0_l, Z.add_0_r in Hnext.
      now apply Hnext. }
    destruct (IH (v + s) e s Hvs He Hs Hpos) as (n & Hrun & Hall & Hstop).
    { intros k Hk Hbefore.
      replace (v + s + k * s + s) with (v + (k + 1) * s + s) by lia.
      apply Hnext; lia. }
    { lia. }
    exists (S n). rewrite progression_succ. repeat split.
    + intros [|fuel] Hf; [lia|].
      rewrite for_each_RangeImpl, RangeImpl_bool_directional by (assumption || lia).
      replace (s <? 0) with false by (symmetry; apply Z.ltb_ge; lia).
      replace (v <? e) with true by (symmetry; apply Z.ltb_lt; lia).
      rewrite RangeImpl_incr_new. unfold Int64.add.
      rewrite (wrap_in_range _ Hvs), Hrun by lia. reflexivity.
    + intros x [<-|Hx]; [assumption|now apply Hall].
    + lia.
  - exists 0%nat. repeat split; [|intros x []|lia].
    intros [|fuel] Hf; [lia|].
    rewrite for_each_RangeImpl, RangeImpl_bool_directional by (assumption || lia).
    replace (s <? 0) with false by (symmetry; apply Z.ltb_ge; lia).
    replace (v <? e) with false by (symmetry; apply Z.ltb_ge; lia).
    reflexivity.
Qed.

(** Counting down. *)
Lemma range_down (m : nat) : forall v e s,
  Int64.in_range v -> Int64.in_range e -> Int64.in_range s ->
  s < 0 -> Int64.min_signed < v -> Int64.min_signed < e ->
  (forall k, 0 <= k -> e < v + k * s -> Int64.min_signed < v + k * s + s) ->
  (Z.to_nat (v - e) <= m)%nat ->
  exists n,
    (forall fuel, (n < fuel)%nat ->
       for_each fuel (RangeImpl_new v e s) = Some (progression v s n))
    /\ (forall x, In x (progression v s n) -> e < x)
    /\ v + Z.of_nat n * s <= e.
Proof.
  induction m as [|m IH]; intros v e s Hv He Hs Hneg Hvmin Hemin Hnext Hm;
    destruct (Z_lt_ge_dec e v) as [Hlt|Hge].
  - lia.
  - exists 0%nat. repeat split; [|intros x []|lia].
    intros [|fuel] Hf; [lia|].
    rewrite for_each_RangeImpl, RangeImpl_bool_directional by (assumption || lia).
    replace (s <? 0) with true by (symmetry; apply Z.ltb_lt; lia).
    replace (e <? v) with false by (symmetry; apply Z.ltb_ge; lia).
    reflexivity.
  - assert (Hvsmin : Int64.min_signed < v + s).
    { specialize (Hnext 0 ltac:(lia)). rewrite Z.mul_0_l, Z.add_0_r in Hnext.
      now apply Hnext. }
    assert (Hvs : Int64.in_range (v + s))
      by (unfold Int64.in_range in *; lia).
    destruct (IH (v + s) e s Hvs He Hs Hneg Hvsmin Hemin) as (n & Hrun & Hall & Hstop).
    { intros k Hk Hbefore.
      replace (v + s + k * s + s) with (v + (k + 1) * s + s) by lia.
      apply Hnext; lia. }
    { lia. }
    exists (S n). rewrite progression_succ. repeat split.
    + intros [|fuel] Hf; [lia|].
      rewrite for_each_RangeImpl, RangeImpl_bool_directional by (assumption || lia).
      replace (s <? 0) with true by (symmetry; apply Z.ltb_lt; lia).
      replace (e <? v) with true by (symmetry; apply Z.ltb_lt; lia).
      rewrite RangeImpl_incr_new. unfold Int64.add.
      rewrite (wrap_in_range _ Hvs), Hrun by lia. reflexivity.
    + intros x [<-|Hx]; [assumption|now apply Hall].
    + lia.
  - exists 0%nat. repeat split; [|intros x []|lia].
    intros [|fuel] Hf; [lia|].
    rewrite for_each_RangeImpl, RangeImpl_bool_directional by (assumption || lia).
    replace (s <? 0) with true by (symmetry; apply Z.ltb_lt; lia).
    replace (e <? v) with false by (symmetry; apply Z.ltb_ge; lia).
    reflexivity.
Qed.

(** A loop over a [Range] is a loop over its [RangeImpl]. *)
Lemma for_each_Range (fuel : nat) (g : Range) :
  for_each fuel g = for_each fuel (base g).
Proof. exact (for_each_base fuel g). Qed.

Lemma progression_unit (n : nat) : progression 0 1 n = map Z.of_nat (seq 0 n).
Proof. unfold progression. apply map_ext. intros k. lia. Qed.

Lemma progression_In (b s : Z) (n k : nat) :
  (k < n)%nat -> In (b + Z.of_nat k * s) (progression b s n).
Proof.
  intros Hk. unfold progression.
  apply (in_map (fun k => b + Z.of_nat k * s)), in_seq. lia.
Qed.

Lemma range_counts_to_end (e : Z) :
  0 <= e <= Int64.max_signed ->
  forall fuel, (Z.to_nat e < fuel)%nat ->
    for_each fuel (range e) = Some (map Z.of_nat (seq 0 (Z.to_nat e))).
Proof.
  intros He fuel Hf.
  assert (Hr : Int64.in_range e)
    by (unfold Int64.in_range, Int64.min_signed, Int64.max_signed in *; lia).
  destruct (range_up (Z.to_nat e) 0 e 1) as (n & Hrun & Hall & Hstop);
    try (unfold Int64.in_range, Int64.min_signed, Int64.max_signed in *; lia).
  assert (Hn : n = Z.to_nat e).
  { destruct n as [|n]; [lia|].
    pose proof (Hall _ (progression_In 0 1 (S n) n ltac:(lia))). lia. }
  subst n. rewrite for_each_Range, <- progression_unit. now apply Hrun.
Qed.

(** C2 (as amended).  [range(end)] with [0 <= end] hands the loop body
    exactly 0, 1, ..., end-1 and [range(0)] nothing.  For 64-bit [begin],
    [end] and [step <> 0] such that no arithmetic of the loop overflows
    ([no_overflow]), a loop over [range(begin, end, step)] ends and hands
    the body exactly [begin], [begin + step], ..., [begin + (n-1) step],
    where every one of these values is strictly below [end] (counting up)
    or strictly above it (counting down) and [begin + n step] is not.
    [range(2,11,3)] gives 2, 5, 8 and [range(3,7)] gives 3, 4, 5, 6. *)
Theorem range_yields :
  (forall e, 0 <= e <= Int64.max_signed ->
     forall fuel, (Z.to_nat e < fuel)%nat ->
       for_each fuel (range e) = Some (map Z.of_nat (seq 0 (Z.to_nat e))))
  /\ for_each 1 (range 0) = Some []
  /\ (forall b e s,
        Int64.in_range b -> Int64.in_range e -> Int64.in_range s ->
        s <> 0 -> no_overflow b e s ->
        exists n,
          (forall fuel, (n < fuel)%nat ->
             for_each fuel (range3 b e s) = Some (progression b s n))
          /\ (forall x, In x (progression b s n) -> before_end s x e)
          /\ ~ before_end s (b + Z.of_nat n * s) e)
  /\ for_each 4 (range3 2 11 3) = Some [2; 5; 8]
  /\ for_each 5 (range2 3 7) = Some [3; 4; 5; 6].
Proof.
  split; [exact range_counts_to_end|].
  split; [reflexivity|].
  split; [|split; reflexivity].
  intros b e s Hb He Hs Hnz [Hadd Hopp].
  unfold before_end in *.
  destruct (0 <? s) eqn:Hdir.
  - apply Z.ltb_lt in Hdir.
    destruct (range_up (Z.to_nat (e - b)) b e s) as (n & Hrun & Hall & Hstop);
      try assumption; try lia.
    exists n. repeat split; [|assumption|lia].
    intros fuel Hf. rewrite for_each_Range. now apply Hrun.
  - apply Z.ltb_ge in Hdir.
    destruct (Hopp ltac:(lia)) as (Hbmin & Hemin & Hnext).
    destruct (range_down (Z.to_nat (b - e)) b e s) as (n & Hrun & Hall & Hstop);
      try assumption; try lia.
    exists n. repeat split; [|assumption|lia].
    intros fuel Hf. rewrite for_each_Range. now apply Hrun.
Qed.

Lemma range_yields_witness :
  exists n,
    (forall fuel, (n < fuel)%nat ->
       for_each fuel (range3 10 4 (-2)) = Some (progression 10 (-2) n))
    /\ (forall x, In x (progression 10 (-2) n) -> before_end (-2) x 4)
    /\ ~ before_end (-2) (10 + Z.of_nat n * (-2)) 4.
Proof.
  apply (proj1 (proj2 (proj2 range_yields)) 10 4 (-2)).
  - unfold Int64.in_range, Int64.min_signed, Int64.max_signed. lia.
  - unfold Int64.in_range, Int64.min_signed, Int64.max_signed. lia.
  - unfold Int64.in_range, Int64.min_signed, Int64.max_signed. lia.
  - lia.
  - unfold no_overflow, before_end, Int64.in_range, Int64.min_signed,
      Int64.max_signed.
    change (0 <? -2) with false. cbv iota. repeat split; intros; lia.
Defined.

(** The descending range of the witness, and the edge cases of the
    header's comment: [range(5,3)] is empty, [range(5,3,-1)] gives 5, 4. *)
Example range_edge_cases :
  for_each 4 (range3 10 4 (-2)) = Some [10; 8; 6]
  /\ for_each 1 (range2 5 3) = Some []
  /\ for_each 3 (range3 5 3 (-1)) = Some [5; 4]
  /\ for_each 6 (range 5) = Some [0; 1; 2; 3; 4].
Proof. repeat split. Qed.

(** C2, as stated, fails at [range(2^63-2, 2^63-1, 2)].  Only [begin] is
    strictly below [end], so the loop should hand the body [begin] and
    end.  Adding the step leaves the 64-bit range, the wrapped value is
    below [end] again and the loop goes on. *)
Lemma range_yields_counterexample :
  ~ exists n,
      (forall fuel, (n < fuel)%nat ->
         for_each fuel (range3 (Int64.max_signed - 1) Int64.max_signed 2)
         = Some (progression (Int64.max_signed - 1) 2 n))
      /\ (forall x, In x (progression (Int64.max_signed - 1) 2 n) ->
            before_end 2 x Int64.max_signed)
      /\ ~ before_end 2 (Int64.max_signed - 1 + Z.of_nat n * 2) Int64.max_signed.
Proof.
  intros (n & Hrun & Hall & Hstop).
  unfold before_end in *. cbn [Z.ltb Z.compare] in *.
  assert (Hn : n = 1%nat).
  { destruct n as [|[|n]]; [lia|reflexivity|].
    pose proof (Hall _ (progression_In (Int64.max_signed - 1) 2 (S (S n)) 1
                          ltac:(lia))). lia. }
  subst n. specialize (Hrun 2%nat ltac:(lia)).
  vm_compute in Hrun. discriminate.
Qed.

Lemma RangeImpl_zero_step_fixed (b e : Z) :
  Int64.in_range b -> RangeImpl_incr (RangeImpl_new b e 0) = RangeImpl_new b e 0.
Proof.
  intros Hb. rewrite RangeImpl_incr_new. unfold Int64.add.
  now rewrite Z.add_0_r, wrap_in_range.
Qed.

Lemma range3_zero_step_incr (b e : Z) :
  Int64.in_range b -> op_incr (range3 b e 0) = range3 b e 0.
Proof.
  intros Hb. unfold range3. cbn [op_incr Generator_ops base RangeImpl_ops].
  now rewrite RangeImpl_zero_step_fixed.
Qed.

Lemma range3_zero_step_bool (b e : Z) :
  Int64.in_range b -> Int64.in_range e -> op_bool (range3 b e 0) = (b <? e).
Proof.
  intros Hb He. unfold range3. cbn [op_bool Generator_ops base RangeImpl_ops].
  rewrite RangeImpl_bool_directional by (assumption || lia). reflexivity.
Qed.

Lemma range3_zero_step_loops (b e : Z) :
  Int64.in_range b -> Int64.in_range e -> b < e ->
  forall fuel, for_each fuel (range3 b e 0) = None.
Proof.
  intros Hb He Hlt fuel. induction fuel as [|fuel IH]; [reflexivity|].
  cbn [for_each]. rewrite range3_zero_step_bool by assumption.
  replace (b <? e) with true by (symmetry; apply Z.ltb_lt; lia).
  change (op_deref (range3 b e 0)) with (b, range3 b e 0).
  cbv iota. rewrite range3_zero_step_incr, IH by assumption. reflexivity.
Qed.

Lemma range3_zero_step_advance_n (b e : Z) (n : nat) :
  Int64.in_range b -> advance_n n (range3 b e 0) = range3 b e 0.
Proof.
  intros Hb. induction n as [|n IH]; [reflexivity|].
  cbn [advance_n]. rewrite IH. now apply range3_zero_step_incr.
Qed.

(** C4 (as amended).  A range with [step == 0] is constructed like any
    other, nothing is checked: advancing leaves it unchanged and its test
    is [begin < end] whatever the number of advances.  A loop over it ends
    at once when [end <= begin] and never ends when [begin < end]. *)
Theorem range_zero_step (b e : Z) :
  Int64.in_range b -> Int64.in_range e ->
  (forall n, advance_n n (range3 b e 0) = range3 b e 0)
  /\ op_bool (range3 b e 0) = (b <? e)
  /\ (e <= b -> forall fuel, (0 < fuel)%nat -> for_each fuel (range3 b e 0) = Some [])
  /\ (b < e -> forall fuel, for_each fuel (range3 b e 0) = None).
Proof.
  intros Hb He. split; [|split; [|split]].
  - intros n. now apply range3_zero_step_advance_n.
  - now apply range3_zero_step_bool.
  - intros Hle [|fuel] Hf; [lia|].
    cbn [for_each]. rewrite range3_zero_step_bool by assumption.
    replace (b <? e) with false by (symmetry; apply Z.ltb_ge; lia).
    reflexivity.
  - intros Hlt. now apply range3_zero_step_loops.
Qed.

Lemma range_zero_step_witness :
  (forall n, advance_n n (range3 0 1 0) = range3 0 1 0)
  /\ op_bool (range3 0 1 0) = (0 <? 1)
  /\ (1 <= 0 -> forall fuel, (0 < fuel)%nat -> for_each fuel (range3 0 1 0) = Some [])
  /\ (0 < 1 -> forall fuel, for_each fuel (range3 0 1 0) = None).
Proof.
  apply (range_zero_step 0 1);
    unfold Int64.in_range, Int64.min_signed, Int64.max_signed; lia.
Defined.

(** C4, as stated, fails at [range(0, 1, 0)]: the generator is
    constructed, its test holds after any number of advances, and a loop
    over it has not ended after any number of steps. *)
Lemma range_zero_step_counterexample :
  (forall n, op_bool (advance_n n (range3 0 1 0)) = true)
  /\ ~ exists fuel vs, for_each fuel (range3 0 1 0) = Some vs.
Proof.
  assert (H0 : Int64.in_range 0)
    by (unfold Int64.in_range, Int64.min_signed, Int64.max_signed; lia).
  assert (H1 : Int64.in_range 1)
    by (unfold Int64.in_range, Int64.min_signed, Int64.max_signed; lia).
  split.
  - intros n. now rewrite range3_zero_step_advance_n.
  - intros (fuel & vs & Hrun).
    rewrite range3_zero_step_loops in Hrun by (assumption || lia).
    discriminate.
Qed.

Lemma advance_n_range3 (b e s : Z) (n : nat) :
  Int64.in_range b ->
  exists v, Int64.in_range v /\ advance_n n (range3 b e s) = range3 v e s.
Proof.
  intros Hb. induction n as [|n (v & Hv & IH)].
  - exists b. split; [assumption|reflexivity].
  - exists (Int64.add v s). split; [apply wrap_is_in_range|].
    cbn [advance_n]. rewrite IH. reflexivity.
Qed.

(** In every state of [range(begin, end, step)] with [step <> 0], [value]
    being the current value: when [step > 0], and when [step < 0] with
    both [value] and [end] above [-2^63], the test
    [(value * sign) < (end * sign)] holds exactly when [value < end]
    (counting up) or [value > end] (counting down). *)
Lemma range_predicate_directional (b e s : Z) (n : nat) :
  Int64.in_range b -> Int64.in_range e -> s <> 0 ->
  (s < 0 ->
   Int64.min_signed < val_ (base (advance_n n (range3 b e s)))
   /\ Int64.min_signed < e) ->
  (op_bool (advance_n n (range3 b e s)) = true
   <-> before_end s (val_ (base (advance_n n (range3 b e s)))) e).
Proof.
  intros Hb He Hnz.
  destruct (advance_n_range3 b e s n Hb) as (v & Hv & ->).
  cbn [base range3 val_ RangeImpl_new op_bool Generator_ops RangeImpl_ops].
  intros Hmin.
  rewrite RangeImpl_bool_directional by assumption.
  unfold before_end.
  destruct (s <? 0) eqn:Hs.
  - apply Z.ltb_lt in Hs.
    replace (0 <? s) with false by (symmetry; apply Z.ltb_ge; lia).
    apply Z.ltb_lt.
  - apply Z.ltb_ge in Hs.
    replace (0 <? s) with true by (symmetry; apply Z.ltb_lt; lia).
    apply Z.ltb_lt.
Qed.

(** C6, at [range(-2^63, 0, -1)] and at [range(0, -2^63, -1)].  The
    opposite of [-2^63] is not a 64-bit value and wraps to [-2^63].  In the
    first range the test holds and the loop body is handed [-2^63], though
    [-2^63 > 0] does not hold: the test and the directional comparison
    differ.  In the second the test fails at once, though [0 > -2^63]. *)
Theorem range_predicate_at_min_signed :
  (op_bool (range3 Int64.min_signed 0 (-1)) = true
   /\ fst (op_deref (range3 Int64.min_signed 0 (-1))) = Int64.min_signed
   /\ ~ before_end (-1) Int64.min_signed 0
   /\ ~ (op_bool (range3 Int64.min_signed 0 (-1)) = true
         <-> before_end (-1) Int64.min_signed 0))
  /\ (op_bool (range3 0 Int64.min_signed (-1)) = false
      /\ before_end (-1) 0 Int64.min_signed).
Proof.
  assert (Hnot : ~ before_end (-1) Int64.min_signed 0)
    by (unfold before_end, Int64.min_signed; cbn; lia).
  split; [|split; [reflexivity|unfold before_end, Int64.min_signed; cbn; lia]].
  split; [reflexivity|]. split; [reflexivity|]. split; [exact Hnot|].
  intros [Hforth _]. exact (Hnot (Hforth eq_refl)).
Qed.

(** ** enumerate *)

Section EnumerateFacts.
Context {A : Type}.
Import Enumerate.

Lemma for_each_enumerate (fuel : nat) (e : enumerate A) :
  for_each (S fuel) e =
  if to_bool e then
    match for_each fuel (incr e) with
    | Some vs => Some (state_ e :: vs)
    | None => None
    end
  else Some [].
Proof. reflexivity. Qed.

(** The loop from the middle of the sequence: [pre] has been walked,
    [rest] is still to come, the index is [i]. *)
Lemma for_each_enumerate_from (rest : list A) : forall (pre : list A) (i s0 : Z) (fuel : nat),
  Int64.in_range i ->
  i + Z.of_nat (length rest) <= Int64.max_signed ->
  (length rest < fuel)%nat ->
  option_map (map (bindings tuple_size get))
    (for_each fuel
       (MkEnumerate (pre ++ rest) s0
          (MkState i (MkIter (pre ++ rest) (length pre)))))
  = Some (expected_pairs rest i).
Proof.
  induction rest as [|x rest IH]; intros pre i s0 [|fuel] Hi Hmax Hf;
    try (simpl in Hf; lia).
  - rewrite for_each_enumerate.
    unfold to_bool, iter_neq, std_end. cbn [state_ iter_ iterable_ pos].
    rewrite app_nil_r, Nat.eqb_refl. reflexivity.
  - rewrite for_each_enumerate.
    unfold to_bool, iter_neq, std_end. cbn [state_ iter_ iterable_ pos].
    replace (Nat.eqb (length pre) (length (pre ++ x :: rest))) with false
      by (symmetry; apply Nat.eqb_neq; rewrite length_app; simpl; lia).
    cbn [negb].
    unfold incr, iter_incr. cbn [state_ iter_ iterable_ pos idx_ starting_idx_ container].
    assert (Hnext : Int64.add i 1 = i + 1).
    { unfold Int64.add. apply wrap_in_range.
      unfold Int64.in_range in *. simpl length in Hmax. lia. }
    rewrite Hnext.
    specialize (IH (pre ++ [x]) (i + 1) s0 fuel).
    rewrite <- app_assoc, last_length in IH. cbn [app] in IH.
    assert (Hrun := IH ltac:(unfold Int64.in_range in *; simpl length in Hmax; lia)
                       ltac:(simpl length in Hmax; lia)
                       ltac:(simpl in Hf; lia)).
    destruct (for_each fuel _) as [vs|]; [|discriminate].
    cbn [option_map map] in *. injection Hrun as Hrun. rewrite Hrun.
    cbn [expected_pairs]. do 2 f_equal.
    unfold bindings, tuple_size, get, iter_deref. cbn.
    rewrite nth_error_app2, Nat.sub_diag by lia. reflexivity.
Qed.

Lemma expected_pairs_length (xs : list A) (s : Z) :
  length (expected_pairs xs s) = length xs.
Proof.
  revert s. induction xs as [|x xs IH]; intros s; simpl; [reflexivity|].
  now rewrite IH.
Qed.

Lemma advance_n_enumerate_idx (xs : list A) (s : Z) (n : nat) :
  Int64.in_range s -> s + Z.of_nat n <= Int64.max_signed ->
  idx_ (state_ (advance_n n (make xs s))) = s + Z.of_nat n.
Proof.
  intros Hs. induction n as [|n IH]; intros Hmax.
  - simpl. lia.
  - cbn [advance_n op_incr enumerate_ops incr state_ idx_].
    rewrite IH by lia. unfold Int64.add. rewrite wrap_in_range.
    + lia.
    + unfold Int64.in_range in *. lia.
Qed.

Lemma advance_n_enumerate_start (xs : list A) (s : Z) (n : nat) :
  starting_idx_ (advance_n n (make xs s)) = s
  /\ iterable_ (advance_n n (make xs s)) = xs.
Proof. induction n as [|n IH]; [split; reflexivity|exact IH]. Qed.
End EnumerateFacts.

(** C3 (as amended).  For a sequence of length L and a 64-bit starting
    index [s] with [s + L] still a 64-bit value, a loop over
    [enumerate{xs, s}] ends and hands the body exactly the L pairs
    [(s, xs[0])], [(s+1, xs[1])], ..., [(s+L-1, xs[L-1])].  Without a
    starting index it is 0, and an empty sequence gives no pair. *)
Theorem enumerate_yields {A : Type} (xs : list A) (s : Z) :
  Int64.in_range s ->
  s + Z.of_nat (length xs) <= Int64.max_signed ->
  (forall fuel, (length xs < fuel)%nat ->
     option_map (map (bindings Enumerate.tuple_size Enumerate.get))
       (for_each fuel (Enumerate.make xs s))
     = Some (expected_pairs xs s))
  /\ length (expected_pairs xs s) = length xs
  /\ Enumerate.make_default xs = Enumerate.make xs 0
  /\ (forall fuel, (0 < fuel)%nat ->
        for_each fuel (Enumerate.make (@nil A) s) = Some []).
Proof.
  intros Hs Hmax. repeat split.
  - intros fuel Hf.
    exact (for_each_enumerate_from xs [] s s fuel Hs Hmax Hf).
  - apply expected_pairs_length.
  - intros [|fuel] Hf; [lia|reflexivity].
Qed.

Lemma enumerate_yields_witness :
  (forall fuel, (3 < fuel)%nat ->
     option_map (map (bindings Enumerate.tuple_size Enumerate.get))
       (for_each fuel (Enumerate.make [1; 2; 3] 10))
     = Some (expected_pairs [1; 2; 3] 10))
  /\ length (expected_pairs [1; 2; 3] 10) = 3%nat
  /\ Enumerate.make_default [1; 2; 3] = Enumerate.make [1; 2; 3] 0
  /\ (forall fuel, (0 < fuel)%nat ->
        for_each fuel (Enumerate.make (@nil Z) 10) = Some []).
Proof.
  apply (enumerate_yields [1; 2; 3] 10).
  - unfold Int64.in_range, Int64.min_signed, Int64.max_signed. lia.
  - unfold Int64.max_signed. simpl. lia.
Defined.

(** C3, as stated, fails at [enumerate{{true, false}, 2^63-1}]: the second
    pair should carry the index [2^63], which is not a 64-bit value; the
    loop hands the body the wrapped index [-2^63]. *)
Lemma enumerate_yields_counterexample :
  ~ exists fuel,
      option_map (map (bindings Enumerate.tuple_size Enumerate.get))
        (for_each fuel (Enumerate.make [true; false] Int64.max_signed))
      = Some (expected_pairs [true; false] Int64.max_signed).
Proof.
  intros (fuel & Hrun).
  destruct fuel as [|[|[|fuel]]]; vm_compute in Hrun; discriminate.
Qed.

(** Scenario B. *)
Example enumerate_scenario_B :
  option_map (map (bindings Enumerate.tuple_size Enumerate.get))
    (for_each 4 (Enumerate.make_default [1; 2; 3]))
  = Some [[RetIdx 0; RetElem (Some 1)];
          [RetIdx 1; RetElem (Some 2)];
          [RetIdx 2; RetElem (Some 3)]]
  /\ option_map (map (bindings Enumerate.tuple_size Enumerate.get))
       (for_each 4 (Enumerate.make [1; 2; 3] 10))
     = Some [[RetIdx 10; RetElem (Some 1)];
             [RetIdx 11; RetElem (Some 2)];
             [RetIdx 12; RetElem (Some 3)]].
Proof. split; reflexivity. Qed.

(** What the loop of the counterexample hands the body. *)
Example enumerate_index_wraps :
  option_map (map (bindings Enumerate.tuple_size Enumerate.get))
    (for_each 3 (Enumerate.make [true; false] Int64.max_signed))
  = Some [[RetIdx Int64.max_signed; RetElem (Some true)];
          [RetIdx Int64.min_signed; RetElem (Some false)]].
Proof. reflexivity. Qed.

(** C8 (as amended).  The index is the starting index at construction
    (0 without one).  Every advance adds 1 to an index below [2^63-1].
    After [n] advances with [start + n] still a 64-bit value, the index is
    [start + n]. *)
Theorem enumerate_index_invariant {A : Type} (xs : list A) (s : Z) (n : nat) :
  Int64.in_range s ->
  s + Z.of_nat n <= Int64.max_signed ->
  Enumerate.idx_ (Enumerate.state_ (Enumerate.make xs s)) = s
  /\ Enumerate.idx_ (Enumerate.state_ (Enumerate.make_default xs)) = 0
  /\ (forall e : Enumerate.enumerate A,
        Int64.in_range (Enumerate.idx_ (Enumerate.state_ e)) ->
        Enumerate.idx_ (Enumerate.state_ e) < Int64.max_signed ->
        Enumerate.idx_ (Enumerate.state_ (op_incr e))
        = Enumerate.idx_ (Enumerate.state_ e) + 1)
  /\ Enumerate.idx_ (Enumerate.state_ (advance_n n (Enumerate.make xs s)))
     = Enumerate.starting_idx_ (advance_n n (Enumerate.make xs s)) + Z.of_nat n.
Proof.
  intros Hs Hmax. repeat split.
  - intros e He Hlt. cbn [op_incr Enumerate.enumerate_ops Enumerate.incr
                            Enumerate.state_ Enumerate.idx_].
    unfold Int64.add. apply wrap_in_range.
    unfold Int64.in_range in *. lia.
  - rewrite (proj1 (advance_n_enumerate_start xs s n)).
    now apply advance_n_enumerate_idx.
Qed.

Lemma enumerate_index_invariant_witness :
  Enumerate.idx_ (Enumerate.state_ (Enumerate.make [true; false] 5)) = 5
  /\ Enumerate.idx_ (Enumerate.state_ (Enumerate.make_default [true; false])) = 0
  /\ (forall e : Enumerate.enumerate bool,
        Int64.in_range (Enumerate.idx_ (Enumerate.state_ e)) ->
        Enumerate.idx_ (Enumerate.state_ e) < Int64.max_signed ->
        Enumerate.idx_ (Enumerate.state_ (op_incr e))
        = Enumerate.idx_ (Enumerate.state_ e) + 1)
  /\ Enumerate.idx_ (Enumerate.state_ (advance_n 2 (Enumerate.make [true; false] 5)))
     = Enumerate.starting_idx_ (advance_n 2 (Enumerate.make [true; false] 5))
       + Z.of_nat 2.
Proof.
  apply (enumerate_index_invariant [true; false] 5 2).
  - unfold Int64.in_range, Int64.min_signed, Int64.max_signed. lia.
  - unfold Int64.max_signed. simpl. lia.
Defined.

(** C8, as stated, fails at [enumerate{{true}, 2^63-1}] after its one
    advance: the index is [-2^63], not the starting index plus 1. *)
Lemma enumerate_index_invariant_counterexample :
  op_bool (Enumerate.make [true] Int64.max_signed) = true
  /\ Enumerate.idx_ (Enumerate.state_
                       (advance_n 1 (Enumerate.make [true] Int64.max_signed)))
     = Int64.min_signed
  /\ Enumerate.idx_ (Enumerate.state_
                       (advance_n 1 (Enumerate.make [true] Int64.max_signed)))
     <> Enumerate.starting_idx_
          (advance_n 1 (Enumerate.make [true] Int64.max_signed)) + Z.of_nat 1.
Proof. repeat split. vm_compute. discriminate. Qed.

(** ** The two enumerate classes *)

Lemma same_state_make {A : Type} (xs : list A) (s : Z) :
  same_state (Enumerate.make xs s) (Enumerator.make xs s).
Proof. repeat split. Qed.

Lemma same_state_incr {A : Type}
  (a : Enumerate.enumerate A) (b : Enumerator.EnumeratorImpl A) :
  same_state a b -> same_state (op_incr a) (op_incr b).
Proof.
  intros (Hit & Hst & Hidx & Hiter). unfold same_state.
  cbn [op_incr Enumerate.enumerate_ops Enumerator.EnumeratorImpl_ops
       Enumerate.incr Enumerator.incr
       Enumerate.iterable_ Enumerate.starting_idx_ Enumerate.state_
       Enumerate.idx_ Enumerate.iter_
       Enumerator.iterable_ Enumerator.starting_idx_ Enumerator.state_
       Enumerator.idx_ Enumerator.iter_].
  rewrite Hidx, Hiter. auto.
Qed.

Lemma same_state_advance_n {A : Type} (xs : list A) (s : Z) (n : nat) :
  same_state (advance_n n (Enumerate.make xs s)) (advance_n n (Enumerator.make xs s)).
Proof.
  induction n as [|n IH]; [apply same_state_make|].
  cbn [advance_n]. now apply same_state_incr.
Qed.

Lemma same_state_observe {A : Type}
  (a : Enumerate.enumerate A) (b : Enumerator.EnumeratorImpl A) :
  same_state a b ->
  op_bool a = op_bool b
  /\ (forall N, Enumerate.get N (fst (op_deref a)) = Enumerator.get N (fst (op_deref b)))
  /\ same_state (snd (op_deref a)) (snd (op_deref b)).
Proof.
  intros Hsame. pose proof Hsame as (Hit & Hst & Hidx & Hiter).
  repeat split; try assumption.
  - cbn [op_bool Enumerate.enumerate_ops Enumerator.EnumeratorImpl_ops].
    unfold Enumerate.to_bool, Enumerator.to_bool. now rewrite Hit, Hiter.
  - intros N. cbn [op_deref Enumerate.enumerate_ops Enumerator.EnumeratorImpl_ops
                    Enumerate.deref Enumerator.deref fst].
    unfold Enumerate.get, Enumerator.get. now rewrite Hidx, Hiter.
Qed.

(** C10.  For the same sequence and starting index, after any number [n]
    of advances, the class [enumerate] and [util::gen::EnumeratorImpl]
    hold the same data, answer the test alike, and show the same index and
    element (and the same nothing at further positions) on dereference;
    dereferencing and advancing keep them alike.  So do the loops over
    them, with any fuel. *)
Theorem enumerate_implementations_agree {A : Type} (xs : list A) (s : Z) (n : nat) :
  let a := advance_n n (Enumerate.make xs s) in
  let b := advance_n n (Enumerator.make xs s) in
  same_state a b
  /\ op_bool a = op_bool b
  /\ (forall N, Enumerate.get N (fst (op_deref a)) = Enumerator.get N (fst (op_deref b)))
  /\ same_state (snd (op_deref a)) (snd (op_deref b))
  /\ same_state (op_incr a) (op_incr b)
  /\ (forall fuel,
        option_map (map (bindings Enumerate.tuple_size Enumerate.get)) (for_each fuel a)
        = option_map (map (bindings Enumerator.tuple_size Enumerator.get))
            (for_each fuel b)).
Proof.
  intros a b.
  assert (Hsame : same_state a b) by apply same_state_advance_n.
  destruct (same_state_observe a b Hsame) as (Hb & Hg & Hd).
  split; [exact Hsame|]. split; [exact Hb|]. split; [exact Hg|].
  split; [exact Hd|]. split; [now apply same_state_incr|].
  intros fuel. clear Hb Hg Hd. revert Hsame. generalize a b. clear a b.
  induction fuel as [|fuel IH]; intros a b Hsame; [reflexivity|].
  destruct (same_state_observe a b Hsame) as (Hb & Hg & Hd).
  cbn [for_each]. rewrite <- Hb. destruct (op_bool a); [|reflexivity].
  change (op_deref a) with (Enumerate.state_ a, a).
  change (op_deref b) with (Enumerator.state_ b, b).
  cbv iota.
  specialize (IH _ _ (same_state_incr a b Hsame)).
  destruct (for_each fuel (op_incr a)), (for_each fuel (op_incr b));
    try discriminate; [|reflexivity].
  cbn [option_map map] in *. injection IH as IH. rewrite IH.
  do 2 f_equal. unfold bindings. apply map_ext. intros N. apply (Hg N).
Qed.

(** ** zip *)

Section ZipFacts.
Import Zip.

Lemma ZipState_new_at (Rest : list Type) : forall Cur (st : ZipStorage Cur Rest),
  ZipState_new st = ZipState_at 0 st.
Proof.
  induction Rest as [|Nxt Rst IH]; intros Cur st; [reflexivity|].
  destruct st as [l st]. cbn. now rewrite IH.
Qed.

Lemma ZipState_incr_at (Rest : list Type) : forall Cur (st : ZipStorage Cur Rest) k,
  ZipState_incr (ZipState_at k st) = ZipState_at (S k) st.
Proof.
  induction Rest as [|Nxt Rst IH]; intros Cur st k; [reflexivity|].
  destruct st as [l st]. cbn. now rewrite IH.
Qed.

Lemma advance_n_zip {Cur Rest} (st : ZipStorage Cur Rest) (n : nat) :
  advance_n n (make st) = MkZip st (ZipState_at n st).
Proof.
  induction n as [|n IH].
  - cbn. unfold make. now rewrite ZipState_new_at.
  - cbn [advance_n]. rewrite IH.
    cbn [op_incr zip_ops]. unfold incr. cbn [storage_ state_].
    now rewrite ZipState_incr_at.
Qed.

Lemma positions_incr (Rest : list Type) : forall Cur (s : ZipState Cur Rest),
  positions (ZipState_incr s) = map S (positions s).
Proof.
  induction Rest as [|Nxt Rst IH]; intros Cur s; [reflexivity|].
  destruct s as [it s]. cbn. now rewrite IH.
Qed.

Lemma positions_at (Rest : list Type) : forall Cur (st : ZipStorage Cur Rest) k,
  positions (ZipState_at k st) = repeat k (tuple_size Rest).
Proof.
  induction Rest as [|Nxt Rst IH]; intros Cur st k; [reflexivity|].
  destruct st as [l st]. cbn. f_equal. apply IH.
Qed.

Lemma can_advance_at (Rest : list Type) : forall Cur (st : ZipStorage Cur Rest) k,
  (k <= shortest st)%nat ->
  can_advance (ZipState_at k st) st = Nat.ltb k (shortest st).
Proof.
  induction Rest as [|Nxt Rst IH]; intros Cur st k Hk.
  - cbn [can_advance ZipState_at shortest] in *.
    unfold iter_neq, std_end. cbn [pos].
    destruct (Nat.eqb_spec k (length st)), (Nat.ltb_spec k (length st));
      cbn [negb]; reflexivity || lia.
  - destruct st as [l st].
    cbn [can_advance ZipState_at shortest fst snd] in *.
    unfold iter_neq, std_end. cbn [pos].
    rewrite IH by lia.
    destruct (Nat.eqb_spec k (length l)),
             (Nat.ltb_spec k (shortest st)),
             (Nat.ltb_spec k (Nat.min (length l) (shortest st)));
      cbn [negb andb]; reflexivity || lia.
Qed.

Lemma before_own_end_at (Rest : list Type) : forall Cur (st : ZipStorage Cur Rest) k,
  Forall2 lt (positions (ZipState_at k st)) (lengths st) <-> (k < shortest st)%nat.
Proof.
  induction Rest as [|Nxt Rst IH]; intros Cur st k.
  - cbn. split.
    + intros H. inversion H. assumption.
    + intros H. constructor; [assumption|constructor].
  - destruct st as [l st]. cbn. split.
    + intros H. inversion H as [|? ? ? ? Hhd Htl]; subst.
      apply IH in Htl. lia.
    + intros H. constructor; [lia|]. apply IH. lia.
Qed.

(** Destructuring the state at offset [k] gives row [k] of the inputs. *)
Lemma bindings_at (Rest : list Type) : forall Cur (st : ZipStorage Cur Rest) k IDX,
  map (fun N => get IDX N (ZipState_at k st)) (seq IDX (tuple_size Rest))
  = row k st.
Proof.
  induction Rest as [|Nxt Rst IH]; intros Cur st k IDX.
  - cbn. now rewrite Nat.eqb_refl.
  - destruct st as [l st].
    change (seq IDX (tuple_size (Nxt :: Rst)))
      with (IDX :: seq (S IDX) (tuple_size Rst)).
    cbn [map get ZipState_at row fst snd]. rewrite Nat.eqb_refl. f_equal.
    rewrite <- (IH Nxt st k (S IDX)).
    apply map_ext_in. intros N HN. apply in_seq in HN.
    replace (Nat.eqb N IDX) with false
      by (symmetry; apply Nat.eqb_neq; lia).
    reflexivity.
Qed.

Lemma row_elements (Rest : list Type) : forall Cur (st : ZipStorage Cur Rest) k,
  (k < shortest st)%nat -> Forall is_element (row k st).
Proof.
  induction Rest as [|Nxt Rst IH]; intros Cur st k Hk.
  - cbn in *. constructor; [|constructor].
    destruct (nth_error st k) eqn:Hnth; [exact I|].
    apply nth_error_None in Hnth. lia.
  - destruct st as [l st]. cbn in *. constructor; [|apply IH; lia].
    destruct (nth_error l k) eqn:Hnth; [exact I|].
    apply nth_error_None in Hnth. lia.
Qed.

Lemma shortest_empty (Rest : list Type) : forall Cur (st : ZipStorage Cur Rest),
  In 0%nat (lengths st) -> shortest st = 0%nat.
Proof.
  induction Rest as [|Nxt Rst IH]; intros Cur st Hin.
  - cbn in *. destruct Hin as [H|[]]. now symmetry.
  - destruct st as [l st]. cbn in *. destruct Hin as [H|H].
    + rewrite H. reflexivity.
    + rewrite (IH _ _ H). apply Nat.min_0_r.
Qed.

Lemma shortest_is_min (Rest : list Type) : forall Cur (st : ZipStorage Cur Rest),
  In (shortest st) (lengths st)
  /\ Forall (fun len => (shortest st <= len)%nat) (lengths st).
Proof.
  induction Rest as [|Nxt Rst IH]; intros Cur st.
  - cbn. split; [now left|]. constructor; [lia|constructor].
  - destruct st as [l st]. cbn. destruct (IH Nxt st) as [Hin Hall]. split.
    + destruct (Nat.min_spec (length l) (shortest st)) as [[_ ->]|[_ ->]];
        [now left|now right].
    + constructor; [lia|].
      eapply Forall_impl; [|exact Hall]. cbn. intros len Hlen. lia.
Qed.

Lemma for_each_zip {Cur Rest} (fuel : nat) (z : zip Cur Rest) :
  for_each (S fuel) z =
  if to_bool z then
    match for_each fuel (incr z) with
    | Some vs => Some (state_ z :: vs)
    | None => None
    end
  else Some [].
Proof. reflexivity. Qed.

(** The loop from offset [k]: [d] more rows are handed to the body. *)
Lemma for_each_zip_from {Cur Rest} (st : ZipStorage Cur Rest) (d : nat) :
  forall k fuel,
    (k + d = shortest st)%nat -> (d < fuel)%nat ->
    for_each fuel (MkZip st (ZipState_at k st))
    = Some (map (fun i => ZipState_at i st) (seq k d)).
Proof.
  induction d as [|d IH]; intros k [|fuel] Hk Hf; try lia.
  - rewrite for_each_zip. unfold to_bool. cbn [state_ storage_].
    rewrite can_advance_at by lia.
    replace (Nat.ltb k (shortest st)) with false
      by (symmetry; apply Nat.ltb_ge; lia).
    reflexivity.
  - rewrite for_each_zip. unfold to_bool, incr. cbn [state_ storage_].
    rewrite can_advance_at by lia.
    replace (Nat.ltb k (shortest st)) with true
      by (symmetry; apply Nat.ltb_lt; lia).
    rewrite ZipState_incr_at, IH by lia. reflexivity.
Qed.
End ZipFacts.

Lemma reachable_zip {Cur Rest} (st : Zip.ZipStorage Cur Rest) (z : Zip.zip Cur Rest) :
  reachable (Zip.make st) z ->
  exists n, (n <= Zip.shortest st)%nat /\ z = Zip.MkZip st (Zip.ZipState_at n st).
Proof.
  induction 1 as [|z Hreach (n & Hn & ->) Hmore].
  - exists 0%nat. split; [lia|]. unfold Zip.make. now rewrite ZipState_new_at.
  - exists (S n).
    cbn [op_bool Zip.zip_ops] in Hmore. unfold Zip.to_bool in Hmore.
    cbn [Zip.state_ Zip.storage_] in Hmore.
    rewrite can_advance_at in Hmore by assumption.
    apply Nat.ltb_lt in Hmore. split; [lia|].
    cbn [op_incr Zip.zip_ops]. unfold Zip.incr. cbn [Zip.state_ Zip.storage_].
    now rewrite ZipState_incr_at.
Qed.

Lemma single_rows {A : Type} (xs : list A) :
  map (fun i => [RetElem (nth_error xs i)]) (seq 0 (length xs))
  = map (fun x => [RetElem (Some x)]) xs.
Proof.
  induction xs as [|x xs IH]; [reflexivity|].
  cbn [length seq map nth_error]. f_equal.
  rewrite <- seq_shift, map_map. exact IH.
Qed.

Lemma zip_loop {Cur Rest} (st : Zip.ZipStorage Cur Rest) (fuel : nat) :
  (Zip.shortest st < fuel)%nat ->
  option_map (map (bindings (Zip.tuple_size Rest) (Zip.get 0)))
    (for_each fuel (Zip.make st))
  = Some (map (fun i => Zip.row i st) (seq 0 (Zip.shortest st))).
Proof.
  intros Hf. unfold Zip.make. rewrite ZipState_new_at.
  rewrite (for_each_zip_from st (Zip.shortest st) 0 fuel) by lia.
  cbn [option_map]. rewrite map_map. f_equal.
  apply map_ext. intros i. apply bindings_at.
Qed.

(** C1.  A loop over [zip{S1, ..., Sn}] ends and hands the body exactly
    [min(L1, ..., Ln)] tuples, the tuple number [i] being
    [(S1[i], ..., Sn[i])], every position an element of its input.  With an
    empty input there is no tuple.  With a single input the tuples are the
    one-element tuples of its elements, in order.  [zip{{1,2,3}, {7,8}}]
    gives (1,7), (2,8). *)
Theorem zip_yields :
  (forall Cur Rest (st : Zip.ZipStorage Cur Rest),
     (forall fuel, (Zip.shortest st < fuel)%nat ->
        option_map (map (bindings (Zip.tuple_size Rest) (Zip.get 0)))
          (for_each fuel (Zip.make st))
        = Some (map (fun i => Zip.row i st) (seq 0 (Zip.shortest st))))
     /\ In (Zip.shortest st) (Zip.lengths st)
     /\ Forall (fun len => (Zip.shortest st <= len)%nat) (Zip.lengths st)
     /\ (forall i, (i < Zip.shortest st)%nat -> Forall is_element (Zip.row i st))
     /\ (In 0%nat (Zip.lengths st) ->
         forall fuel, (0 < fuel)%nat -> for_each fuel (Zip.make st) = Some []))
  /\ (forall Cur (xs : list Cur) fuel, (length xs < fuel)%nat ->
        option_map (map (bindings (Zip.tuple_size []) (Zip.get 0)))
          (for_each fuel (Zip.make (Cur := Cur) (Rest := []) xs))
        = Some (map (fun x => [RetElem (Some x)]) xs))
  /\ option_map (map (bindings (Zip.tuple_size [Z : Type]) (Zip.get 0)))
       (for_each 3 (Zip.make (Cur := Z) (Rest := [Z : Type]) ([1; 2; 3], [7; 8])))
     = Some [[RetElem (Some 1); RetElem (Some 7)];
             [RetElem (Some 2); RetElem (Some 8)]].
Proof.
  split; [|split; [|reflexivity]].
  - intros Cur Rest st.
    split; [intros fuel; apply zip_loop|].
    split; [apply shortest_is_min|].
    split; [apply shortest_is_min|].
    split; [intros i; apply row_elements|].
    intros Hempty [|fuel] Hf; [lia|].
    rewrite for_each_zip. unfold Zip.to_bool, Zip.make.
    cbn [Zip.state_ Zip.storage_].
    rewrite ZipState_new_at, can_advance_at by lia.
    now rewrite (shortest_empty _ _ _ Hempty).
  - intros Cur xs fuel Hf.
    rewrite (zip_loop (Rest := []) xs fuel Hf).
    cbn [Zip.shortest Zip.row]. f_equal. apply single_rows.
Qed.

Lemma zip_yields_witness :
  option_map (map (bindings (Zip.tuple_size [bool : Type]) (Zip.get 0)))
    (for_each 4 (Zip.make (Cur := Z) (Rest := [bool : Type])
                   ([1; 2; 3], [true; false])))
  = Some (map (fun i => Zip.row (Cur := Z) (Rest := [bool : Type]) i
                          ([1; 2; 3], [true; false]))
            (seq 0 2)).
Proof.
  apply (proj1 (proj1 zip_yields Z [bool : Type] ([1; 2; 3], [true; false])) 4%nat).
  simpl. lia.
Defined.

(** Scenarios C and D, the latter with inputs of three element types. *)
Example zip_scenarios_C_D :
  option_map (map (bindings (Zip.tuple_size [Z : Type]) (Zip.get 0)))
    (for_each 4 (Zip.make (Cur := Z) (Rest := [Z : Type]) ([1; 2; 3], [4; 5; 6])))
  = Some [[RetElem (Some 1); RetElem (Some 4)];
          [RetElem (Some 2); RetElem (Some 5)];
          [RetElem (Some 3); RetElem (Some 6)]]
  /\ option_map (map (bindings (Zip.tuple_size [Z : Type; (Z * Z)%type : Type])
                        (Zip.get 0)))
       (for_each 4 (Zip.make (Cur := Z) (Rest := [Z : Type; (Z * Z)%type : Type])
                      ([1; 2; 3], ([4; 5; 6], [(12, 10); (34, 10); (56, 10)]))))
     = Some [[RetElem (Some 1); RetElem (Some 4); RetElem (Some (12, 10))];
             [RetElem (Some 2); RetElem (Some 5); RetElem (Some (34, 10))];
             [RetElem (Some 3); RetElem (Some 6); RetElem (Some (56, 10))]].
Proof. split; reflexivity. Qed.

(** C5.  Whatever the state, and whether or not an input is exhausted,
    an advance moves every marker by one.  After [n] advances of a new
    zip every marker stands at offset [n].  In every state that a caller
    keeping to the protocol reaches, the test holds exactly when every
    marker is strictly before the end of its own input. *)
Theorem zip_markers_lockstep {Cur Rest} (st : Zip.ZipStorage Cur Rest) :
  (forall z : Zip.zip Cur Rest,
     Zip.positions (Zip.state_ (op_incr z)) = map S (Zip.positions (Zip.state_ z)))
  /\ (forall n,
        Zip.positions (Zip.state_ (advance_n n (Zip.make st)))
        = repeat n (Zip.tuple_size Rest))
  /\ (forall z, reachable (Zip.make st) z ->
        (op_bool z = true <->
         Forall2 lt (Zip.positions (Zip.state_ z)) (Zip.lengths (Zip.storage_ z)))).
Proof.
  split; [|split].
  - intros z. apply positions_incr.
  - intros n. rewrite advance_n_zip. apply positions_at.
  - intros z Hreach. destruct (reachable_zip st z Hreach) as (n & Hn & ->).
    cbn [op_bool Zip.zip_ops]. unfold Zip.to_bool.
    cbn [Zip.state_ Zip.storage_].
    rewrite can_advance_at, before_own_end_at by assumption.
    apply Nat.ltb_lt.
Qed.

Lemma zip_markers_lockstep_witness :
  op_bool (op_incr (Zip.make (Cur := Z) (Rest := [Z : Type]) ([1; 2; 3], [7; 8])))
  = true
  <-> Forall2 lt
        (Zip.positions
           (Zip.state_
              (op_incr (Zip.make (Cur := Z) (Rest := [Z : Type]) ([1; 2; 3], [7; 8])))))
        (Zip.lengths
           (Zip.storage_
              (op_incr (Zip.make (Cur := Z) (Rest := [Z : Type]) ([1; 2; 3], [7; 8]))))).
Proof.
  apply (proj2 (proj2 (zip_markers_lockstep (Cur := Z) (Rest := [Z : Type])
                         ([1; 2; 3], [7; 8])))).
  apply reach_incr; [apply reach_start|reflexivity].
Defined.

(** ** Positional access *)

Lemma zip_get_outside (Rest : list Type) :
  forall Cur (s : Zip.ZipState Cur Rest) IDX N,
    (N < IDX \/ IDX + Zip.tuple_size Rest <= N)%nat ->
    Zip.get IDX N s = RetVoid.
Proof.
  induction Rest as [|Nxt Rst IH]; intros Cur s IDX N HN;
    unfold Zip.tuple_size in HN; cbn [length] in HN; cbn [Zip.get].
  - replace (Nat.eqb N IDX) with false
      by (symmetry; apply Nat.eqb_neq; lia).
    reflexivity.
  - replace (Nat.eqb N IDX) with false
      by (symmetry; apply Nat.eqb_neq; lia).
    apply IH. unfold Zip.tuple_size. lia.
Qed.

Lemma zip_get_inside (Rest : list Type) :
  forall Cur (s : Zip.ZipState Cur Rest) IDX N,
    (IDX <= N < IDX + Zip.tuple_size Rest)%nat ->
    Zip.get IDX N s <> RetVoid.
Proof.
  induction Rest as [|Nxt Rst IH]; intros Cur s IDX N HN;
    unfold Zip.tuple_size in HN; cbn [length] in HN; cbn [Zip.get].
  - replace (Nat.eqb N IDX) with true
      by (symmetry; apply Nat.eqb_eq; lia).
    discriminate.
  - destruct (Nat.eqb_spec N IDX) as [->|Hne]; [discriminate|].
    apply IH. unfold Zip.tuple_size. lia.
Qed.

(** C7.  On an [EnumerateState] (arity 2) and on a [ZipState<0, ...>]
    (arity the number of inputs), [get<N>()] for [N] at or beyond the
    arity selects no [return]: the call goes through and hands back
    nothing.  Within the arity it hands back a value. *)
Theorem get_beyond_arity :
  (forall A (s : Enumerate.EnumerateState A) N,
     (Enumerate.tuple_size <= N)%nat -> Enumerate.get N s = RetVoid)
  /\ (forall A (s : Enumerate.EnumerateState A) N,
        (N < Enumerate.tuple_size)%nat -> Enumerate.get N s <> RetVoid)
  /\ (forall Cur Rest (s : Zip.ZipState Cur Rest) N,
        (Zip.tuple_size Rest <= N)%nat -> Zip.get 0 N s = RetVoid)
  /\ (forall Cur Rest (s : Zip.ZipState Cur Rest) N,
        (N < Zip.tuple_size Rest)%nat -> Zip.get 0 N s <> RetVoid).
Proof.
  unfold Enumerate.tuple_size. split; [|split; [|split]].
  - intros A s [|[|N]] HN; try lia. reflexivity.
  - intros A s [|[|N]] HN; try lia; discriminate.
  - intros Cur Rest s N HN. apply zip_get_outside. lia.
  - intros Cur Rest s N HN. apply zip_get_inside. lia.
Qed.

Lemma get_beyond_arity_witness :
  Enumerate.get 2 (Enumerate.MkState 0 (std_begin [true; false])) = RetVoid
  /\ Zip.get 0 2 (Zip.ZipState_new (Cur := Z) (Rest := [Z : Type])
                     ([1; 2; 3], [7; 8])) = RetVoid.
Proof.
  split.
  - apply (proj1 get_beyond_arity). unfold Enumerate.tuple_size. lia.
  - apply (proj1 (proj2 (proj2 get_beyond_arity))). unfold Zip.tuple_size. simpl. lia.
Defined.

(** ** Observations leave the generator alone *)

Section Idempotence.
Context {G V : Type} `{GeneratorImpl G V}.
Hypothesis deref_keeps : forall g : G, snd (op_deref g) = g.

Lemma ask_keeps (q : Query) (g : G) : snd (ask q g) = g.
Proof.
  destruct q; cbn [ask]; [|reflexivity].
  specialize (deref_keeps g). destruct (op_deref g). exact deref_keeps.
Qed.

Lemma ask_all_keeps (qs : list Query) (g : G) :
  ask_all qs g = (map (fun q => fst (ask q g)) qs, g).
Proof.
  induction qs as [|q qs IH]; [reflexivity|].
  cbn [ask_all map].
  pose proof (ask_keeps q g) as Hq.
  destruct (ask q g) as [a g1]. cbn [snd fst] in *. subst g1.
  now rewrite IH.
Qed.
End Idempotence.

(** C9.  On a range, an enumerate and a zip in any state, any sequence
    of dereferences and tests leaves the generator as it was, and every
    one of them gives the answer the first one would give. *)
Theorem queries_idempotent :
  (forall (qs : list Query) (g : Range.Range),
     ask_all qs g = (map (fun q => fst (ask q g)) qs, g))
  /\ (forall A (qs : list Query) (g : Enumerate.enumerate A),
        ask_all qs g = (map (fun q => fst (ask q g)) qs, g))
  /\ (forall Cur Rest (qs : list Query) (g : Zip.zip Cur Rest),
        ask_all qs g = (map (fun q => fst (ask q g)) qs, g)).
Proof.
  split; [|split].
  - intros qs g. apply ask_all_keeps. intros [r]. reflexivity.
  - intros A qs g. apply ask_all_keeps. reflexivity.
  - intros Cur Rest qs g. apply ask_all_keeps. reflexivity.
Qed.

(* ================================================================== *)
(** * Further properties *)

(** ** Generator<Impl> *)

Section GeneratorFacts.
Context {Impl V : Type} `{GeneratorImpl Impl V}.

Lemma base_advance_n (n : nat) (g : Generator Impl) :
  base (advance_n n g) = advance_n n (base g).
Proof.
  induction n as [|n IH]; [reflexivity|].
  cbn [advance_n op_incr Generator_ops base]. now rewrite IH.
Qed.

Lemma base_deref (g : Generator Impl) :
  fst (op_deref g) = fst (op_deref (base g))
  /\ base (snd (op_deref g)) = snd (op_deref (base g)).
Proof.
  cbn [op_deref Generator_ops]. destruct (op_deref (base g)). split; reflexivity.
Qed.
End GeneratorFacts.

(** X1.  [Generator<Impl>] adds nothing of its own to an implementation:
    after any number of advances it wraps the implementation advanced as
    often, its test and its dereference are the implementation's, and a
    loop over it hands the body what a loop over the implementation
    does. *)
Theorem Generator_forwards {Impl V : Type} `{GeneratorImpl Impl V}
  (g : Generator Impl) (n : nat) :
  base (advance_n n g) = advance_n n (base g)
  /\ op_bool (advance_n n g) = op_bool (advance_n n (base g))
  /\ fst (op_deref (advance_n n g)) = fst (op_deref (advance_n n (base g)))
  /\ base (snd (op_deref (advance_n n g))) = snd (op_deref (advance_n n (base g)))
  /\ (forall fuel, for_each fuel (advance_n n g) = for_each fuel (advance_n n (base g))).
Proof.
  split; [apply base_advance_n|].
  split; [cbn [op_bool Generator_ops]; now rewrite base_advance_n|].
  split; [rewrite (proj1 (base_deref _)); now rewrite base_advance_n|].
  split; [rewrite (proj2 (base_deref _)); now rewrite base_advance_n|].
  intros fuel. rewrite for_each_base. now rewrite base_advance_n.
Qed.

(** ** range, continued *)

Lemma in_range_between (b s : Z) (n k : nat) :
  Int64.in_range b -> Int64.in_range (b + Z.of_nat n * s) -> (k <= n)%nat ->
  Int64.in_range (b + Z.of_nat k * s).
Proof.
  unfold Int64.in_range. intros Hb Hn Hk.
  destruct (Z_le_gt_dec 0 s); nia.
Qed.

Lemma advance_n_range3_exact (b e s : Z) (n : nat) :
  Int64.in_range b -> Int64.in_range (b + Z.of_nat n * s) ->
  advance_n n (range3 b e s) = range3 (b + Z.of_nat n * s) e s.
Proof.
  intros Hb. induction n as [|n IH]; intros Hn.
  - cbn [advance_n]. f_equal. lia.
  - cbn [advance_n].
    rewrite IH by (apply (in_range_between b s (S n) n); auto).
    change (op_incr (range3 (b + Z.of_nat n * s) e s))
      with (range3 (Int64.add (b + Z.of_nat n * s) s) e s).
    unfold Int64.add.
    replace (b + Z.of_nat n * s + s) with (b + Z.of_nat (S n) * s) by lia.
    now rewrite wrap_in_range.
Qed.

(** X2.  As long as [begin + n step] is a 64-bit value, a range advanced
    [n] times is the range that begins at [begin + n step]: the current
    value is [begin + n step], the step, the end and the direction are
    those of the construction. *)
Theorem range_after_advances (b e s : Z) (n : nat) :
  Int64.in_range b -> Int64.in_range (b + Z.of_nat n * s) ->
  advance_n n (range3 b e s) = range3 (b + Z.of_nat n * s) e s
  /\ fst (op_deref (advance_n n (range3 b e s))) = b + Z.of_nat n * s
  /\ step_ (base (advance_n n (range3 b e s))) = s
  /\ modded_end_ (base (advance_n n (range3 b e s))) = modded_end_ (base (range3 b e s)).
Proof.
  intros Hb Hn. rewrite advance_n_range3_exact by assumption.
  repeat split.
Qed.

Lemma range_after_advances_witness :
  advance_n 3 (range3 2 11 3) = range3 (2 + Z.of_nat 3 * 3) 11 3
  /\ fst (op_deref (advance_n 3 (range3 2 11 3))) = 2 + Z.of_nat 3 * 3
  /\ step_ (base (advance_n 3 (range3 2 11 3))) = 3
  /\ modded_end_ (base (advance_n 3 (range3 2 11 3))) = modded_end_ (base (range3 2 11 3)).
Proof.
  apply (range_after_advances 2 11 3 3);
    unfold Int64.in_range, Int64.min_signed, Int64.max_signed; simpl; lia.
Defined.

(** The loop over a range whose arithmetic does not overflow, with the
    count left open. *)
Lemma range_runs (b e s : Z) :
  Int64.in_range b -> Int64.in_range e -> Int64.in_range s ->
  s <> 0 -> no_overflow b e s ->
  exists n,
    (forall fuel, (n < fuel)%nat ->
       for_each fuel (range3 b e s) = Some (progression b s n))
    /\ (forall k, (k < n)%nat -> before_end s (b + Z.of_nat k * s) e)
    /\ ~ before_end s (b + Z.of_nat n * s) e.
Proof.
  intros Hb He Hs Hnz [Hadd Hopp].
  unfold before_end in *.
  destruct (0 <? s) eqn:Hdir.
  - apply Z.ltb_lt in Hdir.
    destruct (range_up (Z.to_nat (e - b)) b e s) as (n & Hrun & Hall & Hstop);
      try assumption; try lia.
    exists n. split; [|split; [|lia]].
    + intros fuel Hf. rewrite for_each_Range. now apply Hrun.
    + intros k Hk. apply Hall. now apply progression_In.
  - apply Z.ltb_ge in Hdir.
    destruct (Hopp ltac:(lia)) as (Hbmin & Hemin & Hnext).
    destruct (range_down (Z.to_nat (b - e)) b e s) as (n & Hrun & Hall & Hstop);
      try assumption; try lia.
    exists n. split; [|split; [|lia]].
    + intros fuel Hf. rewrite for_each_Range. now apply Hrun.
    + intros k Hk. apply Hall. now apply progression_In.
Qed.

(** The count of a progression that stops at the end is the rounded-up
    quotient. *)
Lemma count_is_quotient (b e s : Z) (n : nat) :
  0 < s ->
  (forall k, (k < n)%nat -> b + Z.of_nat k * s < e) ->
  e <= b + Z.of_nat n * s ->
  n = Z.to_nat ((e - b + s - 1) / s).
Proof.
  intros Hs Hall Hstop. destruct n as [|n].
  - assert ((e - b + s - 1) / s < 1)
      by (apply Z.div_lt_upper_bound; lia).
    lia.
  - specialize (Hall n ltac:(lia)).
    rewrite <- (Z.div_unique (e - b + s - 1) s (Z.of_nat (S n))
                  (e - b + s - 1 - s * Z.of_nat (S n))); [lia|nia|lia].
Qed.

Lemma range_length_count (b e s : Z) (n : nat) :
  s <> 0 ->
  (forall k, (k < n)%nat -> before_end s (b + Z.of_nat k * s) e) ->
  ~ before_end s (b + Z.of_nat n * s) e ->
  n = range_length b e s.
Proof.
  unfold before_end, range_length. intros Hnz Hall Hstop.
  destruct (0 <? s) eqn:Hdir.
  - apply Z.ltb_lt in Hdir. apply (count_is_quotient b e s n); auto. lia.
  - apply Z.ltb_ge in Hdir.
    replace (b - e - s - 1) with (- e - - b + - s - 1) by lia.
    apply (count_is_quotient (- b) (- e) (- s) n); [lia| |lia].
    intros k Hk. specialize (Hall k Hk). lia.
Qed.

Lemma range_closed (b e s : Z) :
  Int64.in_range b -> Int64.in_range e -> Int64.in_range s ->
  s <> 0 -> no_overflow b e s ->
  forall fuel, (range_length b e s < fuel)%nat ->
    for_each fuel (range3 b e s) = Some (progression b s (range_length b e s)).
Proof.
  intros Hb He Hs Hnz Hno.
  destruct (range_runs b e s Hb He Hs Hnz Hno) as (n & Hrun & Hall & Hstop).
  rewrite <- (range_length_count b e s n Hnz Hall Hstop). exact Hrun.
Qed.

(** X3.  With no overflow, a loop over [range(begin, end, step)] hands the
    body exactly [ceil((end - begin) / step)] values, none when that is
    not positive: the terms [begin + k step] for [k] below that count. *)
Theorem range_closed_form (b e s : Z) :
  Int64.in_range b -> Int64.in_range e -> Int64.in_range s ->
  s <> 0 -> no_overflow b e s ->
  forall fuel, (range_length b e s < fuel)%nat ->
    for_each fuel (range3 b e s) = Some (progression b s (range_length b e s))
    /\ option_map (@length Z) (for_each fuel (range3 b e s))
       = Some (range_length b e s).
Proof.
  intros Hb He Hs Hnz Hno fuel Hf.
  rewrite (range_closed b e s Hb He Hs Hnz Hno fuel Hf).
  split; [reflexivity|].
  cbn [option_map]. unfold progression. now rewrite length_map, length_seq.
Qed.

Lemma no_overflow_small (b e s : Z) :
  - 1000 <= b <= 1000 -> - 1000 <= e <= 1000 -> - 1000 <= s <= 1000 ->
  no_overflow b e s.
Proof.
  intros Hb He Hs.
  unfold no_overflow, before_end, Int64.in_range, Int64.min_signed,
    Int64.max_signed.
  destruct (0 <? s) eqn:Hdir;
    [apply Z.ltb_lt in Hdir|apply Z.ltb_ge in Hdir];
    repeat split; intros; lia.
Qed.

Lemma range_closed_form_witness :
  for_each 5 (range3 10 3 (-2)) = Some (progression 10 (-2) (range_length 10 3 (-2)))
  /\ option_map (@length Z) (for_each 5 (range3 10 3 (-2)))
     = Some (range_length 10 3 (-2)).
Proof.
  apply (range_closed_form 10 3 (-2)).
  - unfold Int64.in_range, Int64.min_signed, Int64.max_signed. lia.
  - unfold Int64.in_range, Int64.min_signed, Int64.max_signed. lia.
  - unfold Int64.in_range, Int64.min_signed, Int64.max_signed. lia.
  - lia.
  - apply no_overflow_small; lia.
  - vm_compute. lia.
Defined.





(** X5.  An exhausted range stays exhausted under further advances for as
    long as its value stays a 64-bit value (and, counting down, stays
    above [-2^63], like the end). *)
Theorem range_exhausted_stays (v e s : Z) (n : nat) :
  Int64.in_range v -> Int64.in_range e -> s <> 0 ->
  Int64.in_range (v + Z.of_nat n * s) ->
  (s < 0 -> Int64.min_signed < v + Z.of_nat n * s /\ Int64.min_signed < e) ->
  op_bool (range3 v e s) = false ->
  op_bool (advance_n n (range3 v e s)) = false.
Proof.
  intros Hv He Hnz Hn Hmin Hdone.
  rewrite advance_n_range3_exact by assumption.
  cbn [op_bool Generator_ops base range3 RangeImpl_ops] in *.
  rewrite RangeImpl_bool_directional in * by (assumption || nia).
  destruct (s <? 0) eqn:Hs.
  - apply Z.ltb_lt in Hs. apply Z.ltb_ge in Hdone. apply Z.ltb_ge. nia.
  - apply Z.ltb_ge in Hs. apply Z.ltb_ge in Hdone. apply Z.ltb_ge. nia.
Qed.

Lemma range_exhausted_stays_witness :
  op_bool (advance_n 4 (range3 7 3 2)) = false.
Proof.
  apply (range_exhausted_stays 7 3 2 4).
  - unfold Int64.in_range, Int64.min_signed, Int64.max_signed. lia.
  - unfold Int64.in_range, Int64.min_signed, Int64.max_signed. lia.
  - lia.
  - unfold Int64.in_range, Int64.min_signed, Int64.max_signed. simpl. lia.
  - intros Hneg. lia.
  - reflexivity.
Defined.

(** Past the 64-bit range the guarantee ends: [range(2^63-1, 2^63-1)] is
    exhausted, and one advance wraps its value below the end. *)
Example range_exhausted_resumes :
  op_bool (range2 Int64.max_signed Int64.max_signed) = false
  /\ op_bool (advance_n 1 (range2 Int64.max_signed Int64.max_signed)) = true.
Proof. split; reflexivity. Qed.

Lemma progression_app (b s : Z) (n m : nat) :
  progression b s (n + m)
  = progression b s n ++ progression (b + Z.of_nat n * s) s m.
Proof.
  revert b. induction n as [|n IH]; intros b.
  - replace (b + Z.of_nat 0 * s) with b by lia. reflexivity.
  - cbn [Nat.add]. rewrite !progression_succ, IH. cbn [app]. do 3 f_equal. lia.
Qed.

Lemma progression_rev (b s : Z) (n : nat) :
  rev (progression b s n) = progression (b + (Z.of_nat n - 1) * s) (- s) n.
Proof.
  induction n as [|n IH]; [reflexivity|].
  replace (S n) with (n + 1)%nat at 1 by lia.
  rewrite progression_app, rev_app_distr, IH.
  rewrite (progression_succ (b + (Z.of_nat (S n) - 1) * s) (- s) n).
  change (rev (progression (b + Z.of_nat n * s) s 1))
    with [b + Z.of_nat n * s + Z.of_nat 0 * s].
  cbn [app]. f_equal; [lia|]. f_equal. lia.
Qed.

Lemma range_length_unit (b e : Z) : range_length b e 1 = Z.to_nat (e - b).
Proof.
  unfold range_length. cbn [Z.ltb Z.compare]. rewrite Z.div_1_r. f_equal. lia.
Qed.

Lemma range2_closed (b e : Z) :
  Int64.in_range b -> Int64.in_range e ->
  forall fuel, (Z.to_nat (e - b) < fuel)%nat ->
    for_each fuel (range2 b e) = Some (progression b 1 (Z.to_nat (e - b))).
Proof.
  intros Hb He fuel Hf. rewrite <- range_length_unit in *.
  apply (range_closed b e 1); try assumption; try lia.
  - unfold Int64.in_range, Int64.min_signed, Int64.max_signed. lia.
  - unfold no_overflow, before_end, Int64.in_range in *.
    cbn [Z.ltb Z.compare]. split; [|lia]. intros k Hk Hlt. lia.
Qed.

(** X6.  For [begin <= middle <= end], a loop over [range(begin, end)]
    hands the body the values of [range(begin, middle)] followed by those
    of [range(middle, end)]. *)
Theorem range_split (b m e : Z) (fuel : nat) :
  Int64.in_range b -> Int64.in_range e -> b <= m <= e ->
  (Z.to_nat (e - b) < fuel)%nat ->
  exists l1 l2,
    for_each fuel (range2 b m) = Some l1
    /\ for_each fuel (range2 m e) = Some l2
    /\ for_each fuel (range2 b e) = Some (l1 ++ l2).
Proof.
  intros Hb He Hm Hf.
  assert (Hmr : Int64.in_range m) by (unfold Int64.in_range in *; lia).
  exists (progression b 1 (Z.to_nat (m - b))),
         (progression m 1 (Z.to_nat (e - m))).
  rewrite !range2_closed by (assumption || lia).
  repeat split.
  replace (Z.to_nat (e - b)) with (Z.to_nat (m - b) + Z.to_nat (e - m))%nat by lia.
  rewrite progression_app. do 3 f_equal. lia.
Qed.

Lemma range_split_witness :
  exists l1 l2,
    for_each 8 (range2 3 5) = Some l1
    /\ for_each 8 (range2 5 10) = Some l2
    /\ for_each 8 (range2 3 10) = Some (l1 ++ l2).
Proof.
  apply (range_split 3 5 10 8).
  - unfold Int64.in_range, Int64.min_signed, Int64.max_signed. lia.
  - unfold Int64.in_range, Int64.min_signed, Int64.max_signed. lia.
  - lia.
  - simpl. lia.
Defined.

(** X7.  For [-2^63 + 1 < begin <= end], a loop over
    [range(end - 1, begin - 1, -1)] hands the body the values of
    [range(begin, end)] in the opposite order. *)
Theorem range_reversed (b e : Z) (fuel : nat) :
  Int64.in_range b -> Int64.in_range e ->
  Int64.min_signed + 1 < b -> b <= e ->
  (Z.to_nat (e - b) < fuel)%nat ->
  for_each fuel (range3 (e - 1) (b - 1) (-1))
  = option_map (@rev Z) (for_each fuel (range2 b e)).
Proof.
  intros Hb He Hmin Hle Hf.
  rewrite range2_closed by assumption. cbn [option_map].
  rewrite progression_rev.
  assert (Hlen : range_length (e - 1) (b - 1) (-1) = Z.to_nat (e - b)).
  { unfold range_length. cbn [Z.ltb Z.compare Z.opp].
    rewrite Z.div_1_r. f_equal. lia. }
  rewrite (range_closed (e - 1) (b - 1) (-1)).
  - rewrite Hlen. do 2 f_equal; lia.
  - unfold Int64.in_range in *. lia.
  - unfold Int64.in_range in *. lia.
  - unfold Int64.in_range, Int64.min_signed, Int64.max_signed. lia.
  - lia.
  - unfold no_overflow, before_end, Int64.in_range in *.
    cbn [Z.ltb Z.compare]. repeat split; intros; lia.
  - now rewrite Hlen.
Qed.

Lemma range_reversed_witness :
  for_each 8 (range3 (10 - 1) (3 - 1) (-1))
  = option_map (@rev Z) (for_each 8 (range2 3 10)).
Proof.
  apply (range_reversed 3 10 8).
  - unfold Int64.in_range, Int64.min_signed, Int64.max_signed. lia.
  - unfold Int64.in_range, Int64.min_signed, Int64.max_signed. lia.
  - unfold Int64.min_signed. lia.
  - lia.
  - simpl. lia.
Defined.

(** ** enumerate, continued *)







Lemma advance_n_enumerate_exact {A : Type} (xs : list A) (s : Z) (n : nat) :
  Int64.in_range s -> s + Z.of_nat n <= Int64.max_signed ->
  advance_n n (Enumerate.make xs s)
  = Enumerate.MkEnumerate xs s (Enumerate.MkState (s + Z.of_nat n) (MkIter xs n)).
Proof.
  intros Hs. induction n as [|n IH]; intros Hmax.
  - replace (s + Z.of_nat 0) with s by lia. reflexivity.
  - cbn [advance_n]. rewrite IH by lia.
    cbn [op_incr Enumerate.enumerate_ops]. unfold Enumerate.incr, iter_incr.
    cbn [Enumerate.state_ Enumerate.iter_ Enumerate.iterable_ pos
         Enumerate.idx_ Enumerate.starting_idx_ container].
    unfold Int64.add. rewrite wrap_in_range
      by (unfold Int64.in_range in *; lia).
    do 2 f_equal. lia.
Qed.

(** X10.  An enumerate that has walked the first part of its sequence
    goes on like a new enumerate of the rest that starts at the index
    reached: as long as the index does not overflow, the pairs still to
    come over [xs ++ ys] after [length xs] advances are the pairs over
    [ys] from [s + length xs]. *)
Theorem enumerate_resumes {A : Type} (xs ys : list A) (s : Z) (fuel : nat) :
  Int64.in_range s ->
  s + Z.of_nat (length xs) + Z.of_nat (length ys) <= Int64.max_signed ->
  (length ys < fuel)%nat ->
  option_map enumerate_pairs
    (for_each fuel (advance_n (length xs) (Enumerate.make (xs ++ ys) s)))
  = option_map enumerate_pairs
      (for_each fuel (Enumerate.make ys (s + Z.of_nat (length xs))))
  /\ option_map enumerate_pairs
       (for_each fuel (Enumerate.make ys (s + Z.of_nat (length xs))))
     = Some (expected_pairs ys (s + Z.of_nat (length xs))).
Proof.
  intros Hs Hmax Hf.
  assert (Hmid : Int64.in_range (s + Z.of_nat (length xs)))
    by (unfold Int64.in_range in *; lia).
  rewrite advance_n_enumerate_exact by (assumption || lia).
  unfold enumerate_pairs.
  rewrite (for_each_enumerate_from ys xs (s + Z.of_nat (length xs)) s fuel)
    by (assumption || lia).
  assert (Hrun : option_map (map (bindings Enumerate.tuple_size Enumerate.get))
                   (for_each fuel (Enumerate.make ys (s + Z.of_nat (length xs))))
                 = Some (expected_pairs ys (s + Z.of_nat (length xs))))
    by exact (for_each_enumerate_from ys [] (s + Z.of_nat (length xs))
                (s + Z.of_nat (length xs)) fuel Hmid ltac:(lia) Hf).
  rewrite Hrun. split; reflexivity.
Qed.

Lemma enumerate_resumes_witness :
  option_map enumerate_pairs
    (for_each 3 (advance_n (length [1; 2]) (Enumerate.make ([1; 2] ++ [3; 4]) 10)))
  = option_map enumerate_pairs
      (for_each 3 (Enumerate.make [3; 4] (10 + Z.of_nat (length [1; 2]))))
  /\ option_map enumerate_pairs
       (for_each 3 (Enumerate.make [3; 4] (10 + Z.of_nat (length [1; 2]))))
     = Some (expected_pairs [3; 4] (10 + Z.of_nat (length [1; 2]))).
Proof.
  apply (enumerate_resumes [1; 2] [3; 4] 10 3).
  - unfold Int64.in_range, Int64.min_signed, Int64.max_signed. lia.
  - unfold Int64.max_signed. simpl. lia.
  - simpl. lia.
Defined.

(** ** util::gen::EnumeratorImpl, continued *)

Lemma same_state_for_each {A : Type} (fuel : nat) :
  forall (a : Enumerate.enumerate A) (b : Enumerator.EnumeratorImpl A),
    same_state a b ->
    option_map (map (bindings Enumerator.tuple_size Enumerator.get)) (for_each fuel b)
    = option_map (map (bindings Enumerate.tuple_size Enumerate.get)) (for_each fuel a).
Proof.
  induction fuel as [|fuel IH]; intros a b Hsame; [reflexivity|].
  destruct (same_state_observe a b Hsame) as (Hb & Hg & Hd).
  cbn [for_each]. rewrite <- Hb. destruct (op_bool a); [|reflexivity].
  change (op_deref a) with (Enumerate.state_ a, a).
  change (op_deref b) with (Enumerator.state_ b, b).
  cbv iota.
  specialize (IH _ _ (same_state_incr a b Hsame)).
  destruct (for_each fuel (op_incr a)), (for_each fuel (op_incr b));
    try discriminate; [|reflexivity].
  cbn [option_map map] in *. injection IH as IH. rewrite IH.
  do 2 f_equal. unfold bindings. apply map_ext. intros N. symmetry. apply (Hg N).
Qed.

(** X11.  For a sequence of length L and a 64-bit starting index [s] with
    [s + L] still a 64-bit value, a loop over [util::gen::EnumeratorImpl]
    ends and hands the body the L pairs [(s, xs[0])], ...,
    [(s+L-1, xs[L-1])]; after [n <= L] advances its index is [s + n]. *)
Theorem EnumeratorImpl_yields {A : Type} (xs : list A) (s : Z) :
  Int64.in_range s ->
  s + Z.of_nat (length xs) <= Int64.max_signed ->
  (forall fuel, (length xs < fuel)%nat ->
     option_map (map (bindings Enumerator.tuple_size Enumerator.get))
       (for_each fuel (Enumerator.make xs s))
     = Some (expected_pairs xs s))
  /\ (forall n, (n <= length xs)%nat ->
        Enumerator.idx_ (Enumerator.state_ (advance_n n (Enumerator.make xs s)))
        = s + Z.of_nat n).
Proof.
  intros Hs Hmax. split.
  - intros fuel Hf.
    rewrite (same_state_for_each fuel _ _ (same_state_make xs s)).
    exact (for_each_enumerate_from xs [] s s fuel Hs Hmax Hf).
  - intros n Hn.
    destruct (same_state_advance_n xs s n) as (_ & _ & <- & _).
    apply advance_n_enumerate_idx; [assumption|lia].
Qed.

Lemma EnumeratorImpl_yields_witness :
  (forall fuel, (length [1; 2; 3] < fuel)%nat ->
     option_map (map (bindings Enumerator.tuple_size Enumerator.get))
       (for_each fuel (Enumerator.make [1; 2; 3] 10))
     = Some (expected_pairs [1; 2; 3] 10))
  /\ (forall n, (n <= length [1; 2; 3])%nat ->
        Enumerator.idx_ (Enumerator.state_ (advance_n n (Enumerator.make [1; 2; 3] 10)))
        = 10 + Z.of_nat n).
Proof.
  apply (EnumeratorImpl_yields [1; 2; 3] 10).
  - unfold Int64.in_range, Int64.min_signed, Int64.max_signed. lia.
  - unfold Int64.max_signed. simpl. lia.
Defined.

(** ** zip, continued *)

Lemma zip_loop_tuples {Cur Rest} (st : Zip.ZipStorage Cur Rest) (fuel : nat) :
  (Zip.shortest st < fuel)%nat ->
  option_map zip_tuples (for_each fuel (Zip.make st))
  = Some (map (fun i => Zip.row i st) (seq 0 (Zip.shortest st))).
Proof. exact (zip_loop st fuel). Qed.

(** X12.  Swapping the two inputs of a zip swaps the two positions of
    every tuple and changes nothing else. *)
Theorem zip_swap {A B : Type} (xs : list A) (ys : list B) (fuel : nat) :
  (Nat.min (length xs) (length ys) < fuel)%nat ->
  option_map zip_tuples
    (for_each fuel (Zip.make (Cur := A) (Rest := [B]) (xs, ys)))
  = option_map (map (@rev Returned))
      (option_map zip_tuples
         (for_each fuel (Zip.make (Cur := B) (Rest := [A]) (ys, xs)))).
Proof.
  intros Hf.
  rewrite (zip_loop_tuples (Cur := A) (Rest := [B]) (xs, ys) fuel) by exact Hf.
  rewrite (zip_loop_tuples (Cur := B) (Rest := [A]) (ys, xs) fuel)
    by (cbn [Zip.shortest fst snd]; lia).
  cbn [option_map Zip.shortest fst snd]. rewrite map_map, Nat.min_comm.
  reflexivity.
Qed.

Lemma zip_swap_witness :
  option_map zip_tuples
    (for_each 3 (Zip.make (Cur := Z) (Rest := [bool : Type]) ([1; 2; 3], [true; false])))
  = option_map (map (@rev Returned))
      (option_map zip_tuples
         (for_each 3 (Zip.make (Cur := bool) (Rest := [Z : Type])
                        ([true; false], [1; 2; 3])))).
Proof.
  apply (zip_swap [1; 2; 3] [true; false] 3). simpl. lia.
Defined.

Lemma combine_rows {A : Type} (f : nat -> list Returned) (l : list A) :
  forall a m,
    map (fun p => RetElem (Some (fst p)) :: snd p) (combine l (map f (seq a m)))
    = map (fun i => RetElem (nth_error l (i - a)) :: f i)
        (seq a (Nat.min (length l) m)).
Proof.
  induction l as [|x l IH]; intros a m; [reflexivity|].
  destruct m as [|m]; [reflexivity|].
  cbn [length Nat.min seq map combine fst snd].
  rewrite Nat.sub_diag. cbn [nth_error]. f_equal.
  rewrite IH. apply map_ext_in. intros i Hi. apply in_seq in Hi.
  replace (i - a)%nat with (S (i - S a)) by lia. reflexivity.
Qed.

(** X13.  The tuples of a zip over a first input and further inputs are
    the tuples of the zip over the further inputs, each with the element
    of the first input put in front, as far as both go. *)
Theorem zip_prepend {Cur Nxt : Type} {Rst : list Type}
  (l : list Cur) (st : Zip.ZipStorage Nxt Rst) (fuel : nat) :
  (Zip.shortest st < fuel)%nat ->
  exists ts,
    option_map zip_tuples (for_each fuel (Zip.make st)) = Some ts
    /\ option_map zip_tuples
         (for_each fuel (Zip.make (Cur := Cur) (Rest := Nxt :: Rst) (l, st)))
       = Some (map (fun p => RetElem (Some (fst p)) :: snd p) (combine l ts)).
Proof.
  intros Hf.
  exists (map (fun i => Zip.row i st) (seq 0 (Zip.shortest st))).
  split; [now apply zip_loop_tuples|].
  rewrite (zip_loop_tuples (Cur := Cur) (Rest := Nxt :: Rst) (l, st) fuel)
    by (cbn [Zip.shortest fst snd]; lia).
  rewrite combine_rows. cbn [Zip.shortest fst snd]. f_equal.
  apply map_ext. intros i. cbn [Zip.row fst snd]. now rewrite Nat.sub_0_r.
Qed.

Lemma zip_prepend_witness :
  exists ts,
    option_map zip_tuples
      (for_each 4 (Zip.make (Cur := bool) (Rest := []) [true; false; true])) = Some ts
    /\ option_map zip_tuples
         (for_each 4 (Zip.make (Cur := Z) (Rest := [bool : Type])
                        ([1; 2], [true; false; true])))
       = Some (map (fun p => RetElem (Some (fst p)) :: snd p) (combine [1; 2] ts)).
Proof.
  apply (zip_prepend (Cur := Z) (Nxt := bool) (Rst := []) [1; 2] [true; false; true] 4).
  simpl. lia.
Defined.

Lemma shortest_truncate (Rest : list Type) :
  forall Cur (st : Zip.ZipStorage Cur Rest) m,
    Zip.shortest (truncate m st) = Nat.min m (Zip.shortest st).
Proof.
  induction Rest as [|Nxt Rst IH]; intros Cur st m.
  - cbn [truncate Zip.shortest]. apply length_firstn.
  - destruct st as [l st]. cbn [truncate Zip.shortest fst snd].
    rewrite IH, length_firstn. lia.
Qed.

Lemma row_truncate (Rest : list Type) :
  forall Cur (st : Zip.ZipStorage Cur Rest) m i,
    (i < m)%nat -> Zip.row i (truncate m st) = Zip.row i st.
Proof.
  induction Rest as [|Nxt Rst IH]; intros Cur st m i Hi.
  - cbn [truncate Zip.row]. rewrite nth_error_firstn.
    replace (Nat.ltb i m) with true by (symmetry; apply Nat.ltb_lt; lia).
    reflexivity.
  - destruct st as [l st]. cbn [truncate Zip.row fst snd].
    rewrite nth_error_firstn, IH by assumption.
    replace (Nat.ltb i m) with true by (symmetry; apply Nat.ltb_lt; lia).
    reflexivity.
Qed.

(** X14.  A zip never looks past the length of its shortest input:
    cutting every input to that length changes no tuple handed to the
    body, and so neither does anything that follows in a longer input. *)
Theorem zip_ignores_tails {Cur Rest} (st : Zip.ZipStorage Cur Rest) (fuel : nat) :
  (Zip.shortest st < fuel)%nat ->
  option_map zip_tuples (for_each fuel (Zip.make (truncate (Zip.shortest st) st)))
  = option_map zip_tuples (for_each fuel (Zip.make st)).
Proof.
  intros Hf.
  assert (Hsh : Zip.shortest (truncate (Zip.shortest st) st) = Zip.shortest st)
    by (rewrite shortest_truncate; lia).
  rewrite !zip_loop_tuples by (rewrite ?Hsh; exact Hf).
  rewrite Hsh. f_equal. apply map_ext_in. intros i Hi. apply in_seq in Hi.
  apply row_truncate. lia.
Qed.

Lemma zip_ignores_tails_witness :
  option_map zip_tuples
    (for_each 3 (Zip.make
                   (truncate
                      (Zip.shortest (Cur := Z) (Rest := [bool : Type])
                         ([1; 2; 3; 4], [true; false]))
                      (Cur := Z) (Rest := [bool : Type])
                      ([1; 2; 3; 4], [true; false]))))
  = option_map zip_tuples
      (for_each 3 (Zip.make (Cur := Z) (Rest := [bool : Type])
                     ([1; 2; 3; 4], [true; false]))).
Proof.
  apply (zip_ignores_tails (Cur := Z) (Rest := [bool : Type])
           ([1; 2; 3; 4], [true; false]) 3).
  simpl. lia.
Defined.


